(** * KD-CBS: conflict detection, interpolation and the constraint RRT

    A shallow embedding of [src/KD_CBS.cpp] (the high-level planner
    [KD_CBS] and the low-level planner [constraintRRT]) together with the
    properties its specification states about them.

    Conventions of the embedding.
    - C++ [double] is an abstract type [D] with the operations the source
      applies to it ([DoubleOps]); the general theorems hold for every
      interpretation of these operations, IEEE arithmetic included.  The
      worked examples run on the rational interpretation of module
      [Example].
    - [std::vector] is [list]; a read [v[i]] is [at_ v i], which faults
      when [i] is out of range.  Sizes and indices are [nat]; the [int]
      counter [totalSteps] of the constraint check wraps at 32 bits.
    - [std::unordered_set<Conflict>] is the sequence of its insertions.
    - [exit(1)], a failing [assert] and an out-of-range read end a run
      with a [fault]; everything else returns [Ok].
    - OMPL and boost are collaborators: the dynamics ([propagate]), the
      samplers, the goal test, the low-level runs behind a
      [SimpleSetup] and [boost::geometry::disjoint] are parameters or
      inputs, never defined here. *)

From Stdlib Require Import ZArith QArith Qround String Lia.
From stdpp Require Import base option list list_numbers.

Local Open Scope Z_scope.
Local Open Scope list_scope.

(** ** Doubles *)

(** The operations on [double] that occur in the source.  [wkt] is the
    trip of a coordinate through [std::to_string] and
    [boost::geometry::read_wkt]. *)
Class DoubleOps (D : Type) := {
  dadd : D -> D -> D;
  dsub : D -> D -> D;
  dmul : D -> D -> D;
  ddiv : D -> D -> D;
  dcos : D -> D;
  dsin : D -> D;
  dfloor : D -> D;
  d_to_int : D -> Z;
  d_of_int : Z -> D;
  dhalf : D;
  dle : D -> D -> bool;
  dlt : D -> D -> bool;
  dne : D -> D -> bool;
  wkt : D -> D
}.

(** ** Faults *)

Inductive fault : Type :=
| AssertFailed
| OutOfRange
| ProcessExit (code : Z).

Inductive result (A : Type) : Type :=
| Ok (a : A)
| Fault (f : fault).
Arguments Ok {A} a.
Arguments Fault {A} f.

#[global] Instance result_ret : MRet result := fun A a => Ok a.
#[global] Instance result_bind : MBind result :=
  fun A B f m => match m with Ok a => f a | Fault e => Fault e end.

(** [v[i]] of a [std::vector]. *)
Definition at_ {A : Type} (v : list A) (i : nat) : result A :=
  match v !! i with
  | Some a => Ok a
  | None => Fault OutOfRange
  end.

(** Wrap-around of a value stored in a 32-bit [int]. *)
Definition to_int32 (z : Z) : Z := (z + 2 ^ 31) mod 2 ^ 32 - 2 ^ 31.

(** ** Geometry *)

Module Geometry.
Section Geometry.
Context {D : Type} `{DoubleOps D}.

Definition point : Type := D * D.

(** A [polygon] is its outer ring, in the order the WKT text lists it. *)
Definition polygon : Type := list point.

Definition two : D := d_of_int 2.

(** The rectangle the source writes as
    [POLYGON((BL, BR, TR, TL, BL))] for a vehicle of the given width
    and height at [(cx, cy, theta)]. *)
Definition footprint (carWidth carHeight cx cy theta : D) : polygon :=
  let hw := ddiv carWidth two in
  let hh := ddiv carHeight two in
  let TR_x := dsub (dadd cx (dmul hw (dcos theta))) (dmul hh (dsin theta)) in
  let TR_y := dadd (dadd cy (dmul hw (dsin theta))) (dmul hh (dcos theta)) in
  let TL_x := dsub (dsub cx (dmul hw (dcos theta))) (dmul hh (dsin theta)) in
  let TL_y := dadd (dsub cy (dmul hw (dsin theta))) (dmul hh (dcos theta)) in
  let BL_x := dadd (dsub cx (dmul hw (dcos theta))) (dmul hh (dsin theta)) in
  let BL_y := dsub (dsub cy (dmul hw (dsin theta))) (dmul hh (dcos theta)) in
  let BR_x := dadd (dadd cx (dmul hw (dcos theta))) (dmul hh (dsin theta)) in
  let BR_y := dsub (dadd cy (dmul hw (dsin theta))) (dmul hh (dcos theta)) in
  let top_right := (wkt TR_x, wkt TR_y) in
  let top_left := (wkt TL_x, wkt TL_y) in
  let bottom_left := (wkt BL_x, wkt BL_y) in
  let bottom_right := (wkt BR_x, wkt BR_y) in
  [bottom_left; bottom_right; top_right; top_left; bottom_left].
End Geometry.
End Geometry.
Import Geometry.

(** ** OMPL objects *)

Module Ompl.
Section Ompl.
Context {D : Type} `{DoubleOps D} {State Control : Type}.

(** What the planners ask of a [SpaceInformation]. *)
Record SpaceInformation : Type := {
  getPropagationStepSize : D;
  getMinControlDuration : Z;
  propagate : State -> Control -> Z -> list State
}.

Record PathControl : Type := {
  getSpaceInformation : SpaceInformation;
  getStates : list State;
  getControls : list Control;
  getControlDurations : list D
}.

Definition getStateCount (p : PathControl) : nat := length (getStates p).

(** [path.append(state)] and [path.append(state, control, duration)]. *)
Definition append1 (p : PathControl) (s : State) : PathControl :=
  {| getSpaceInformation := getSpaceInformation p;
     getStates := getStates p ++ [s];
     getControls := getControls p;
     getControlDurations := getControlDurations p |}.

Definition append3 (p : PathControl) (s : State) (u : Control) (d : D)
    : PathControl :=
  {| getSpaceInformation := getSpaceInformation p;
     getStates := getStates p ++ [s];
     getControls := getControls p ++ [u];
     getControlDurations := getControlDurations p ++ [d] |}.

Definition emptyPath (si : SpaceInformation) : PathControl :=
  {| getSpaceInformation := si; getStates := [];
     getControls := []; getControlDurations := [] |}.
End Ompl.
Arguments SpaceInformation D State Control : clear implicits.
Arguments PathControl D State Control : clear implicits.

(** The values of [base::PlannerStatus] the planners return. *)
Inductive PlannerStatus : Type :=
| INVALID_START
| TIMEOUT
| APPROXIMATE_SOLUTION
| EXACT_SOLUTION.

(** [PlannerStatus(hasSolution, isApproximate)], written
    [{solved, approximate}] in the source. *)
Definition mkStatus (hasSolution isApproximate : bool) : PlannerStatus :=
  if hasSolution
  then (if isApproximate then APPROXIMATE_SOLUTION else EXACT_SOLUTION)
  else TIMEOUT.

(** [operator bool] of a status, and whether it is approximate. *)
Definition solved (s : PlannerStatus) : bool :=
  match s with
  | APPROXIMATE_SOLUTION | EXACT_SOLUTION => true
  | _ => false
  end.

Definition approximate (s : PlannerStatus) : bool :=
  match s with
  | APPROXIMATE_SOLUTION => true
  | _ => false
  end.
End Ompl.
Import Ompl.

(** ** Agents, conflicts and constraints *)

Module World.
Section World.
Context {D : Type}.

(** An agent of the world [w_]: its name and its shape
    [(getShape()[0], getShape()[1])]. *)
Record Agent : Type := {
  getName : string;
  carWidth : D;
  carHeight : D
}.

(** [Conflict conf{ai, aj, shape, shape, time}]. *)
Record Conflict : Type := mkConflict {
  agent1 : nat;
  agent2 : nat;
  polygon1 : @polygon D;
  polygon2 : @polygon D;
  time : D
}.

Record Constraint : Type := {
  getAgent : nat;
  getPolygons : list (@polygon D);
  getTimeRange : D * D
}.
End World.
Arguments Agent D : clear implicits.
Arguments Conflict D : clear implicits.
Arguments Constraint D : clear implicits.
End World.
Import World.

(** ** The high-level planner *)

Module KD_CBS.
Section KD_CBS.
Context {D : Type} `{DoubleOps D} {State Control : Type}.
#[local] Abbreviation PathControl := (PathControl D State Control).
#[local] Abbreviation Agent := (Agent D).
#[local] Abbreviation Conflict := (Conflict D).
#[local] Abbreviation polygon := (@polygon D).

(** *** interpolate *)

(** The accumulators [newStates], [newControls], [newControlDurations]. *)
Definition buffers : Type := list State * list Control * list D.

(** [steps] of one segment: [(int)floor(0.5 + d / res)]. *)
Definition segment_steps (res d : D) : Z :=
  d_to_int (dfloor (dadd dhalf (ddiv d res))).

(** The [for] loop of [interpolate]: [n] iterations are left and the
    next index is [i].  Cloned controls are equal to their original. *)
Fixpoint interpolate_loop (p : PathControl) (res : D) (n i : nat)
    (acc : buffers) : result buffers :=
  match n with
  | O => Ok acc
  | S n' =>
    let '(newStates, newControls, newControlDurations) := acc in
    d ← at_ (getControlDurations p) i;
    let steps := segment_steps res d in
    if steps <? 0 then Fault AssertFailed
    else
      s ← at_ (getStates p) i;
      u ← at_ (getControls p) i;
      if steps <=? 1 then
        interpolate_loop p res n' (S i)
          (newStates ++ [s], newControls ++ [u], newControlDurations ++ [d])
      else
        let istates :=
          removelast (propagate (getSpaceInformation p) s u steps) in
        interpolate_loop p res n' (S i)
          (newStates ++ s :: istates,
           newControls ++ u :: replicate (Z.to_nat (steps - 1)) u,
           newControlDurations ++ res :: replicate (Z.to_nat (steps - 1)) res)
  end.

Definition interpolate (p : PathControl) : result PathControl :=
  if decide (length (getStates p) ≤ length (getControls p))%nat then Ok p
  else
    let res := getPropagationStepSize (getSpaceInformation p) in
    let n := length (getControls p) in
    '(newStates, newControls, newControlDurations) ←
      interpolate_loop p res n 0 ([], [], []);
    last ← at_ (getStates p) n;
    Ok {| getSpaceInformation := getSpaceInformation p;
          getStates := newStates ++ [last];
          getControls := newControls;
          getControlDurations := newControlDurations |}.

(** *** validatePlan *)

Context (stateX stateY stateTheta : State -> D).
Context (disjoint : polygon -> polygon -> bool).

(** The footprint of agent [a] at state [s]. *)
Definition agentShape (a : Agent) (s : State) : polygon :=
  footprint (carWidth a) (carHeight a) (stateX s) (stateY s) (stateTheta s).

Definition Plan : Type := list PathControl.

(** [for (i...) interpolate(pl[i])]. *)
Fixpoint interpolateAll (pl : Plan) : result Plan :=
  match pl with
  | [] => Ok []
  | p :: pl' =>
    p' ← interpolate p;
    rest ← interpolateAll pl';
    Ok (p' :: rest)
  end.

Definition maxStates (pl : Plan) : nat :=
  foldl (fun m p => if decide (m < getStateCount p)%nat
                    then getStateCount p else m) 0%nat pl.

(** [validStatesAtK] and [validAgentsIdx] at step [k]: slot [i] (the
    head of [pl] is slot [i]) contributes when [k < getStateCount]. *)
Fixpoint validAtK (pl : Plan) (i k : nat) : list State * list nat :=
  match pl with
  | [] => ([], [])
  | p :: pl' =>
    let '(validStatesAtK, validAgentsIdx) := validAtK pl' (S i) k in
    match getStates p !! k with
    | Some s => (s :: validStatesAtK, i :: validAgentsIdx)
    | None => (validStatesAtK, validAgentsIdx)
    end
  end.

(** [shapes]: one polygon per valid agent, built from
    [w_->getAgents()[validAgentsIdx[j]]] and [validStatesAtK[j]]. *)
Fixpoint buildShapes (agents : list Agent) (validStatesAtK : list State)
    (validAgentsIdx : list nat) : result (list polygon) :=
  match validAgentsIdx, validStatesAtK with
  | idx :: idxs, s :: ss =>
    a ← at_ agents idx;
    rest ← buildShapes agents ss idxs;
    Ok (agentShape a s :: rest)
  | [], _ => Ok []
  | _ :: _, [] => Fault OutOfRange
  end.

(** The pairs [(ai, aj)] in the order the two nested [for] loops visit
    them. *)
Definition visitOrder (n : nat) : list (nat * nat) :=
  ai ← seq 0 n; aj ← seq 0 n; [(ai, aj)].

Definition inCollision (shapes : list polygon) (pr : nat * nat) : bool :=
  bool_decide (pr.1 ≠ pr.2) &&
  match shapes !! pr.1, shapes !! pr.2 with
  | Some a, Some b => negb (disjoint a b)
  | _, _ => false
  end.

(** The first pair at which the disjoint check fails. *)
Definition firstCollision (shapes : list polygon) : option (nat * nat) :=
  find (inCollision shapes) (visitOrder (length shapes)).

(** The [while (inConflict)] loop.  On entry [k] has been incremented
    and [s1], [s2] are the states of [pl[ai]] and [pl[aj]] from index
    [k] on, so that both are non-empty exactly when
    [validStatesAtK.size() = 2].  [idx1] and [idx2] are
    [validAgentsIdx[ai]] and [validAgentsIdx[aj]]. *)
Fixpoint conflictWindow (agents : list Agent) (minStepSize : D)
    (ai aj idx1 idx2 k : nat) (s1 s2 : list State) (c : list Conflict)
    : result (list Conflict) :=
  match s1, s2 with
  | x1 :: s1', x2 :: s2' =>
    a1 ← at_ agents idx1;
    let agent1 := agentShape a1 x1 in
    a2 ← at_ agents idx2;
    let agent2 := agentShape a2 x2 in
    if negb (disjoint agent1 agent2) then
      let conf := mkConflict ai aj agent1 agent2
                    (dmul (d_of_int (Z.of_nat k)) minStepSize) in
      conflictWindow agents minStepSize ai aj idx1 idx2 (S k) s1' s2'
        (c ++ [conf])
    else Ok c
  | _, _ => Ok c
  end.

(** One pass of the body of [for (k...)] at step [k]: either the
    conflicts to return, or [None] when no pair collides at [k]. *)
Definition scanStep (agents : list Agent) (minStepSize : D) (pl : Plan)
    (k : nat) : result (option (list Conflict)) :=
  let '(validStatesAtK, validAgentsIdx) := validAtK pl 0 k in
  shapes ← buildShapes agents validStatesAtK validAgentsIdx;
  match firstCollision shapes with
  | None => Ok None
  | Some (ai, aj) =>
    sa ← at_ shapes ai;
    sb ← at_ shapes aj;
    let conf := mkConflict ai aj sa sb
                  (dmul (d_of_int (Z.of_nat k)) minStepSize) in
    pa ← at_ pl ai;
    pb ← at_ pl aj;
    idx1 ← at_ validAgentsIdx ai;
    idx2 ← at_ validAgentsIdx aj;
    c ← conflictWindow agents minStepSize ai aj idx1 idx2 (S k)
           (drop (S k) (getStates pa)) (drop (S k) (getStates pb)) [conf];
    Ok (Some c)
  end.

(** [for (int k = 0; k < maxStates; k++)], with [n] iterations left. *)
Fixpoint scan (agents : list Agent) (minStepSize : D) (pl : Plan)
    (n k : nat) : result (list Conflict) :=
  match n with
  | O => Ok []
  | S n' =>
    r ← scanStep agents minStepSize pl k;
    match r with
    | Some c => Ok c
    | None => scan agents minStepSize pl n' (S k)
    end
  end.

(** [validatePlan].  The [std::unordered_set] it fills is kept as the
    sequence of its insertions. *)
Definition validatePlan (agents : list Agent) (pl : Plan)
    : result (list Conflict) :=
  p0 ← at_ pl 0%nat;
  let minStepSize := getPropagationStepSize (getSpaceInformation p0) in
  pl' ← interpolateAll pl;
  scan agents minStepSize pl' (maxStates pl') 0.

(** *** solve *)

(** A [SimpleSetup] of [mmpp_]: its space information and what
    [ss.solve(planningTime_)] yields in this run, [Some path] when the
    returned status converts to [true] ([path] is [getSolutionPath()]). *)
Record SimpleSetup : Type := {
  ss_si : SpaceInformation D State Control;
  ss_solve : option PathControl
}.

Record conflictNode : Type := { getPlan : Plan }.

(** What a run does to its surroundings: a call of the low-level
    planner of slot [i], and
    [pdef->addSolutionPath(path, approximate, difference, name)] on the
    problem definition of slot [i]. *)
Inductive event : Type :=
| LowLevelSolve (i : nat)
| AddSolutionPath (i : nat) (path : PathControl) (isApproximate : bool)
    (difference : D) (name : string).

(** A computation that logs events and may fault. *)
Definition run (A : Type) : Type := list event * result A.

#[local] Instance run_ret : MRet run := fun A a => ([], Ok a).
#[local] Instance run_bind : MBind run :=
  fun A B f m =>
    match m with
    | (t, Ok a) => let '(t', r) := f a in (t ++ t', r)
    | (t, Fault e) => (t, Fault e)
    end.

Definition emit (e : event) : run unit := ([e], Ok tt).
Definition lift {A : Type} (r : result A) : run A := ([], r).

(** The loop that creates the initial solution: every [ss] is solved,
    the paths of the solved ones are collected. *)
Fixpoint rootPlans (mmpp : list SimpleSetup) (i : nat) (root_sol : Plan)
    : run Plan :=
  match mmpp with
  | [] => mret root_sol
  | ss :: mmpp' =>
    _ ← emit (LowLevelSolve i);
    match ss_solve ss with
    | Some path => rootPlans mmpp' (S i) (root_sol ++ [path])
    | None => rootPlans mmpp' (S i) root_sol
    end
  end.

(** The inner [for (j...)] of the bookkeeping, [n] iterations left. *)
Fixpoint copyLoop (mpath : PathControl) (n j : nat) (path : PathControl)
    : result PathControl :=
  match n with
  | O => Ok path
  | S n' =>
    if decide (0 < j)%nat then
      s ← at_ (getStates mpath) j;
      u ← at_ (getControls mpath) j;
      d ← at_ (getControlDurations mpath) j;
      copyLoop mpath n' (S j) (append3 path s u d)
    else
      s ← at_ (getStates mpath) j;
      copyLoop mpath n' (S j) (append1 path s)
  end.

(** [j < mpath.getStateCount() - 1] is an unsigned comparison: with no
    state the bound wraps around and the first read is out of range. *)
Definition copyBound (mpath : PathControl) : nat :=
  match getStateCount mpath with
  | O => 1
  | S m => m
  end.

(** The outer [for (i...)] of the bookkeeping, from slot [i] on. *)
Fixpoint deliver (agents : list Agent) (plan : Plan)
    (mmpp : list SimpleSetup) (i : nat) (solved : bool) : run bool :=
  match mmpp with
  | [] => mret solved
  | ss :: mmpp' =>
    mpath ← lift (at_ plan i);
    path ← lift (copyLoop mpath (copyBound mpath) 0 (emptyPath (ss_si ss)));
    a ← lift (at_ agents i);
    _ ← emit (AddSolutionPath i path false (d_of_int (-1)) (getName a));
    deliver agents plan mmpp' (S i) true
  end.

Context (popHead : list conflictNode -> option (conflictNode * list conflictNode)).

(** The [while] loop.  Every path through its body leaves it ([break]
    or [exit(1)]), so the termination condition is read once: [ptc] is
    its value then. *)
Definition highLevel (agents : list Agent) (queue : list conflictNode)
    (ptc : bool) : result (option conflictNode) :=
  if negb ptc && negb (bool_decide (queue = [])) then
    match popHead queue with
    | None => Fault OutOfRange
    | Some (curr, _) =>
      c ← validatePlan agents (getPlan curr);
      match c with
      | [] => Ok (Some curr)
      | _ :: _ => Fault (ProcessExit 1)
      end
    end
  else Ok None.

(** [KD_CBS::solve], started with [queue_] as its open set. *)
Definition solve (agents : list Agent) (mmpp_ : list SimpleSetup)
    (queue_ : list conflictNode) (ptc : bool) : run PlannerStatus :=
  ss0 ← lift (at_ mmpp_ 0%nat);
  let minStepSize := getPropagationStepSize (ss_si ss0) in
  if existsb (fun ss => dne (getPropagationStepSize (ss_si ss)) minStepSize)
       mmpp_
  then mret INVALID_START
  else
    root_sol ← rootPlans mmpp_ 0 [];
    let queue :=
      if decide (length root_sol = length mmpp_)
      then queue_ ++ [ {| getPlan := root_sol |} ] else queue_ in
    if decide (length queue = 0)%nat then mret INVALID_START
    else
      solution ← lift (highLevel agents queue ptc);
      match solution with
      | None => mret (mkStatus false false)
      | Some node =>
        solved ← deliver agents (getPlan node) mmpp_ 0 false;
        mret (mkStatus solved false)
      end.
End KD_CBS.
End KD_CBS.

(** ** The low-level planner *)

Module constraintRRT.
Section constraintRRT.
Context {D : Type} `{DoubleOps D} {State Control : Type}.
#[local] Abbreviation Agent := (Agent D).
#[local] Abbreviation Constraint := (Constraint D).
#[local] Abbreviation polygon := (@polygon D).
#[local] Abbreviation SpaceInformation := (SpaceInformation D State Control).

Context (stateX stateY stateTheta : State -> D).
Context (disjoint : polygon -> polygon -> bool).

(** A node of the tree.  The root has no parent. *)
#[warnings="-register-all"] Inductive Motion : Type :=
  mkMotion (state : State) (control : Control) (steps : Z)
           (parent : option Motion).

Definition state (m : Motion) : State :=
  match m with mkMotion s _ _ _ => s end.
Definition steps (m : Motion) : Z :=
  match m with mkMotion _ _ n _ => n end.
Definition parent (m : Motion) : option Motion :=
  match m with mkMotion _ _ _ p => p end.

(** [while (nCopy->parent)]: the steps applied to reach [nCopy],
    accumulated in the [int] [totalSteps]. *)
Fixpoint countSteps (nCopy : Motion) (totalSteps : Z) : Z :=
  match nCopy with
  | mkMotion _ _ n (Some p) => countSteps p (to_int32 (totalSteps + n))
  | mkMotion _ _ _ None => totalSteps
  end.

Definition inTimeRange (c : Constraint) (currTime : D) : bool :=
  dle (getTimeRange c).1 currTime && dle currTime (getTimeRange c).2.

(** The body of [for (const Constraint *c: constraints_)] with its
    inner [for] over the polygons; [false] stands for [return false]. *)
Definition respects (a : Agent) (n : Motion) (currTime : D)
    (c : Constraint) : bool :=
  if inTimeRange c currTime then
    let currShape :=
      footprint (carWidth a) (carHeight a)
        (stateX (state n)) (stateY (state n)) (stateTheta (state n)) in
    forallb (fun p => disjoint currShape p) (getPolygons c)
  else true.

(** [satisfiesConstraints], with [a_] the planner's agent object. *)
Definition satisfiesConstraints (a_ : option Agent) (siC_ : SpaceInformation)
    (constraints_ : list Constraint) (n : Motion) : result bool :=
  match a_ with
  | None => Fault (ProcessExit 1)
  | Some a =>
    let stepSize := getPropagationStepSize siC_ in
    let totalSteps := countSteps n 0 in
    let currTime := dmul (d_of_int totalSteps) stepSize in
    Ok (forallb (respects a n currTime) constraints_)
  end.

(** *** solve *)

(** [goal->isSatisfied(state, &dist)]. *)
Context (isSatisfied : State -> bool * D).

(** What the collaborators hand to one iteration of the main loop: the
    nearest tree node, the sampled control, the duration and reached
    state of [sampleTo], and the duration and states of
    [propagateWhileValid]. *)
Record Sample : Type := {
  nmotion : Motion;
  rctrl : Control;
  sampleTo : Z * State;
  propagateWhileValid : Z * list State
}.

Record Tree : Type := {
  nn_ : list Motion;
  solution : option Motion;
  approxsol : option Motion;
  approxdif : D
}.

(** [nn_->add(motion)] followed by the goal test: the new tree, and
    whether the goal is reached. *)
Definition addMotion (t : Tree) (motion : Motion) : Tree * bool :=
  let nn := nn_ t ++ [motion] in
  let '(solv, dist) := isSatisfied (state motion) in
  if solv then
    ({| nn_ := nn; solution := Some motion; approxsol := approxsol t;
        approxdif := dist |}, true)
  else if dlt dist (approxdif t) then
    ({| nn_ := nn; solution := solution t; approxsol := Some motion;
        approxdif := dist |}, false)
  else
    ({| nn_ := nn; solution := solution t; approxsol := approxsol t;
        approxdif := approxdif t |}, false).

(** [for (; p < pstates.size(); ++p)] of the intermediate-states
    branch. *)
Fixpoint addIntermediate (t : Tree) (ctrl : Control) (lastmotion : Motion)
    (pstates : list State) : Tree * bool :=
  match pstates with
  | [] => (t, false)
  | ps :: pstates' =>
    let motion := mkMotion ps ctrl 1 (Some lastmotion) in
    let '(t', solved) := addMotion t motion in
    if solved then (t', true)
    else addIntermediate t' ctrl motion pstates'
  end.

(** One iteration of [while (ptc == false)]: the new tree and whether
    the loop is left by [break]. *)
Definition extend (addIntermediateStates_ : bool) (a_ : option Agent)
    (siC_ : SpaceInformation) (constraints_ : list Constraint)
    (t : Tree) (s : Sample) : result (Tree * bool) :=
  if addIntermediateStates_ then
    let '(cd, pstates) := propagateWhileValid s in
    if getMinControlDuration siC_ <=? cd then
      Ok (addIntermediate t (rctrl s) (nmotion s) pstates)
    else Ok (t, false)
  else
    let '(cd, rstate) := sampleTo s in
    if getMinControlDuration siC_ <=? cd then
      let motion := mkMotion rstate (rctrl s) cd (Some (nmotion s)) in
      if negb (bool_decide (constraints_ = [])) then
        sat ← satisfiesConstraints a_ siC_ constraints_ motion;
        if sat : bool then Ok (addMotion t motion) else Ok (t, false)
      else Ok (addMotion t motion)
    else Ok (t, false).

(** The main loop of [solve]: the termination condition stays [false]
    for as many iterations as there are samples. *)
Fixpoint solve (addIntermediateStates_ : bool) (a_ : option Agent)
    (siC_ : SpaceInformation) (constraints_ : list Constraint)
    (t : Tree) (samples : list Sample) : result Tree :=
  match samples with
  | [] => Ok t
  | s :: samples' =>
    '(t', leave) ← extend addIntermediateStates_ a_ siC_ constraints_ t s;
    if leave : bool then Ok t'
    else solve addIntermediateStates_ a_ siC_ constraints_ t' samples'
  end.
End constraintRRT.
End constraintRRT.

(** ** The specification's reading of the interpolator *)

Module Spec.
Section Spec.
Context {D : Type} `{DoubleOps D} {State Control : Type}.
#[local] Abbreviation PathControl := (PathControl D State Control).
#[local] Abbreviation buffers := (@KD_CBS.buffers D State Control).

(** What section 4.4 makes of one segment [(s, u, d)]: the states it
    contributes (its endpoint left to the next segment), its controls
    and their durations.  [steps] is the rounded quotient of the
    duration and Delta, as the source rounds it. *)
Definition rewritten (si : SpaceInformation D State Control) (s : State)
    (u : Control) (d : D) : buffers :=
  let delta := getPropagationStepSize si in
  let steps := KD_CBS.segment_steps delta d in
  if steps <=? 1 then ([s], [u], [d])
  else (s :: removelast (propagate si s u steps),
        replicate (Z.to_nat steps) u,
        replicate (Z.to_nat steps) delta).

(** A well-formed trajectory: one state more than controls, a duration
    per control, no duration rounding to a negative step count. *)
Definition wellFormed (p : PathControl) : Prop :=
  length (getStates p) = S (length (getControls p)) /\
  length (getControlDurations p) = length (getControls p) /\
  Forall (fun d => 0 <= KD_CBS.segment_steps
                          (getPropagationStepSize (getSpaceInformation p)) d)
         (getControlDurations p).

(** The segments [(s_i, u_i, d_i)] of a trajectory. *)
Definition segments (p : PathControl) : list (State * Control * D) :=
  zip (zip (getStates p) (getControls p)) (getControlDurations p).

Definition rewrittenAll (p : PathControl) : list buffers :=
  map (fun '(s, u, d) => rewritten (getSpaceInformation p) s u d)
      (segments p).

(** States, controls and durations put end to end. *)
Definition glue (acc b : buffers) : buffers :=
  (acc.1.1 ++ b.1.1, acc.1.2 ++ b.1.2, acc.2 ++ b.2).

Definition flatten (bs : list buffers) : buffers :=
  (concat (map (fun b => b.1.1) bs), concat (map (fun b => b.1.2) bs),
   concat (map (fun b => b.2) bs)).

(** The interpolated trajectory: the rewritten segments in order,
    closed by the last state of the original. *)
Definition interpolated (p : PathControl) : PathControl :=
  let b := flatten (rewrittenAll p) in
  {| getSpaceInformation := getSpaceInformation p;
     getStates := b.1.1 ++ option_list (last (getStates p));
     getControls := b.1.2;
     getControlDurations := b.2 |}.

(** The sum of the control step counts along the ancestor chain of a
    tree node: one count per control applied, none for the root. *)
Fixpoint ancestorSteps (m : @constraintRRT.Motion State Control) : Z :=
  match m with
  | constraintRRT.mkMotion _ _ n (Some p) => n + ancestorSteps p
  | constraintRRT.mkMotion _ _ _ None => 0
  end.
End Spec.

Section Detector.
Context {D : Type} `{DoubleOps D} {State Control : Type}.
Context (stateX stateY stateTheta : State -> D).
Context (disjoint : @polygon D -> @polygon D -> bool).
#[local] Abbreviation Plan := (@KD_CBS.Plan D State Control).
#[local] Abbreviation shapeOf := (KD_CBS.agentShape stateX stateY stateTheta).

(** The state of slot [i] at step [k], if its trajectory has one. *)
Definition stateAt (pl : Plan) (i k : nat) : option State :=
  p ← pl !! i; getStates p !! k.

(** Slots [i] and [j] both have a state at step [k] and their
    footprints there are not disjoint. *)
Definition collides (agents : list (Agent D)) (pl : Plan) (k i j : nat)
    : bool :=
  match agents !! i, agents !! j, stateAt pl i k, stateAt pl j k with
  | Some a, Some b, Some s, Some t => negb (disjoint (shapeOf a s) (shapeOf b t))
  | _, _, _, _ => false
  end.

(** One record per step, from step [k] on, for as long as both
    trajectories have a state and the footprints collide; [s1] and
    [s2] are the states from step [k] on. *)
Fixpoint overlap (a b : Agent D) (i j : nat) (delta : D) (k : nat)
    (s1 s2 : list State) : list (Conflict D) :=
  match s1, s2 with
  | x :: s1', y :: s2' =>
    if negb (disjoint (shapeOf a x) (shapeOf b y)) then
      mkConflict i j (shapeOf a x) (shapeOf b y)
        (dmul (d_of_int (Z.of_nat k)) delta)
      :: overlap a b i j delta (S k) s1' s2'
    else []
  | _, _ => []
  end.

(** The records of the maximal contiguous overlap window of slots [i]
    and [j] that starts at step [k]. *)
Definition window (agents : list (Agent D)) (delta : D) (pl : Plan)
    (i j k : nat) : list (Conflict D) :=
  match agents !! i, agents !! j, pl !! i, pl !! j with
  | Some a, Some b, Some p, Some q =>
    overlap a b i j delta k (drop k (getStates p)) (drop k (getStates q))
  | _, _, _, _ => []
  end.

(** Step [k] is the earliest at which two slots collide. *)
Definition earliest (agents : list (Agent D)) (pl : Plan) (k : nat) : Prop :=
  (exists i j, i ≠ j /\ collides agents pl k i j = true) /\
  (forall k' i j, (k' < k)%nat -> i ≠ j -> collides agents pl k' i j = false).

(** The answer section 4.3 describes: no record, or exactly one. *)
Definition singleRecord (res : list (Conflict D)) : Prop :=
  res = [] \/ exists c, res = [c].

(** The time stamps of [n] consecutive steps from step [k] on. *)
Definition stamps (delta : D) (k n : nat) : list D :=
  map (fun m => dmul (d_of_int (Z.of_nat m)) delta) (seq k n).
End Detector.
End Spec.

(** ** A concrete interpretation for the worked examples *)

Module Example.
Local Open Scope Q_scope.

(** [cos] and [sin] are exact at heading 0, which is the heading of
    every state used below; elsewhere the entries are placeholders
    that no example reaches. *)
Definition cosAtZero (t : Q) : Q := if Qeq_bool t 0 then 1 else 0.
Definition sinAtZero (t : Q) : Q := 0.

(** Six decimals, as [std::to_string] prints. *)
Definition sixDecimals (q : Q) : Q :=
  Qred (inject_Z (Qfloor (q * 1000000 + (1 # 2))) / 1000000).

(** Rationals as doubles: exact on the small dyadic values of the
    examples, where IEEE arithmetic is exact as well. *)
#[global] Instance QDouble : DoubleOps Q := {|
  dadd a b := Qred (a + b);
  dsub a b := Qred (a - b);
  dmul a b := Qred (a * b);
  ddiv a b := Qred (a / b);
  dcos := cosAtZero;
  dsin := sinAtZero;
  dfloor q := inject_Z (Qfloor q);
  d_to_int := Qfloor;
  d_of_int := inject_Z;
  dhalf := 1 # 2;
  dle := Qle_bool;
  dlt a b := negb (Qle_bool b a);
  dne a b := negb (Qeq_bool a b);
  wkt := sixDecimals
|}.

(** A state is [(x, y, theta)]; a control is a velocity along x. *)
Definition State : Type := Q * Q * Q.
Definition Control : Type := Q.

Definition stateX (s : State) : Q := s.1.1.
Definition stateY (s : State) : Q := s.1.2.
Definition stateTheta (s : State) : Q := s.2.

Definition at_xy (x y : Q) : State := (x, y, 0).

(** Closed bounding boxes; on the axis-parallel rectangles of the
    examples this is the closed-set disjointness of
    [boost::geometry::disjoint]. *)
Definition lowest (l : list Q) : Q :=
  foldr (fun a b => if Qle_bool a b then a else b) (hd 0 l) l.
Definition highest (l : list Q) : Q :=
  foldr (fun a b => if Qle_bool a b then b else a) (hd 0 l) l.

Definition disjoint (p q : @polygon Q) : bool :=
  let xs1 := map fst p in let ys1 := map snd p in
  let xs2 := map fst q in let ys2 := map snd q in
  negb (Qle_bool (lowest xs1) (highest xs2) && Qle_bool (lowest xs2) (highest xs1)
        && Qle_bool (lowest ys1) (highest ys2) && Qle_bool (lowest ys2) (highest ys1)).

(** The dynamics: [x] advances by the velocity at every step of
    size 1. *)
Fixpoint drive (s : State) (u : Control) (n : nat) : list State :=
  match n with
  | O => []
  | S n' =>
    let s' := (Qred (s.1.1 + u), s.1.2, s.2) in
    s' :: drive s' u n'
  end.

Definition si : SpaceInformation Q State Control :=
  {| getPropagationStepSize := 1;
     getMinControlDuration := 1;
     propagate s u steps := drive s u (Z.to_nat steps) |}.

Definition car (name : string) : Agent Q :=
  {| getName := name; carWidth := 2; carHeight := 2 |}.

Definition path (ss : list State) (us : list Control) (ds : list Q)
    : PathControl Q State Control :=
  {| getSpaceInformation := si; getStates := ss;
     getControls := us; getControlDurations := ds |}.

(** A trajectory of two segments, of durations 3 and 1. *)
Definition twoSegments : PathControl Q State Control :=
  path [at_xy 0 0; at_xy 3 0; at_xy 4 0] [1; 1] [3; 1].

(** A tree of three nodes, the controls applied for 2 and 3 steps. *)
Definition root : @constraintRRT.Motion State Control :=
  constraintRRT.mkMotion (at_xy 0 0) 0 0 None.
Definition inner : @constraintRRT.Motion State Control :=
  constraintRRT.mkMotion (at_xy 2 0) 1 2 (Some root).
Definition leaf : @constraintRRT.Motion State Control :=
  constraintRRT.mkMotion (at_xy 5 0) 1 3 (Some inner).

(** Keep out of the square around (5, 0) from time 4 to time 6, and
    out of the square around (20, 0) from time 0 to time 9. *)
Definition keepOut : list (Constraint Q) :=
  [ {| getAgent := 0%nat;
       getPolygons := [footprint 2 2 5 0 0];
       getTimeRange := (4, 6) |};
    {| getAgent := 0%nat;
       getPolygons := [footprint 2 2 20 0 0];
       getTimeRange := (0, 9) |} ].

(** The open set as a queue served from its head. *)
Definition popHead (q : list (@KD_CBS.conflictNode Q State Control))
    : option (KD_CBS.conflictNode * list KD_CBS.conflictNode) :=
  match q with
  | [] => None
  | n :: q' => Some (n, q')
  end.

(** Scenario S3: two agents whose propagators advertise the steps 0.1
    and 0.2. *)
Definition siWithStep (delta : Q) : SpaceInformation Q State Control :=
  {| getPropagationStepSize := delta;
     getMinControlDuration := 1;
     propagate s u steps := drive s u (Z.to_nat steps) |}.

Definition mismatched : list (@KD_CBS.SimpleSetup Q State Control) :=
  [ {| KD_CBS.ss_si := siWithStep (1 # 10);
       KD_CBS.ss_solve := Some (path [at_xy 0 0; at_xy 1 0] [1] [1]) |};
    {| KD_CBS.ss_si := siWithStep (2 # 10);
       KD_CBS.ss_solve := Some (path [at_xy 0 5; at_xy 1 5] [1] [1]) |} ].

Definition ready (p : PathControl Q State Control)
    : @KD_CBS.SimpleSetup Q State Control :=
  {| KD_CBS.ss_si := si; KD_CBS.ss_solve := Some p |}.

(** Scenario S2, head-on along y = 0: each root trajectory is one
    segment of four steps; the 2 x 2 footprints overlap at steps 1 and
    2 (x = 1 against x = 2, then x = 2 against x = 1) and are apart at
    steps 0, 3 and 4. *)
Definition eastbound : PathControl Q State Control :=
  path [at_xy 0 0; at_xy 4 0] [1] [4].
Definition westbound : PathControl Q State Control :=
  path [at_xy 3 0; at_xy (-1) 0] [-1] [4].
Definition headOn : list (@KD_CBS.SimpleSetup Q State Control) :=
  [ready eastbound; ready westbound].
Definition twoCars : list (Agent Q) := [car "a0"; car "a1"].

(** Three agents.  Slot 0 drives along y = 0 and stops after one step;
    slots 1 and 2 approach each other along y = 10 and overlap at steps
    2 and 3 (x = 2 against x = 3, then both at x = 3). *)
Definition shortLived : PathControl Q State Control :=
  path [at_xy 0 0; at_xy 1 0] [1] [1].
Definition chaser : PathControl Q State Control :=
  path [at_xy 0 10; at_xy 1 10; at_xy 2 10; at_xy 3 10] [1; 1; 1] [1; 1; 1].
Definition comer : PathControl Q State Control :=
  path [at_xy 10 10; at_xy 7 10; at_xy 3 10; at_xy 3 10] [-3; -4; 0] [1; 1; 1].
Definition threeCars : list (Agent Q) := [car "a0"; car "a1"; car "a2"].

(** A single agent whose trajectory has three states. *)
Definition lonely : PathControl Q State Control :=
  path [at_xy 0 0; at_xy 1 0; at_xy 3 0] [1; 2] [1; 1].

(** The goal of the low-level examples: x at least 100. *)
Definition isSatisfied (s : State) : bool * Q :=
  (Qle_bool 100 (stateX s), Qred (100 - stateX s)).

(** One iteration of the tree search from the node at (4, 0): the
    sampled control drives one step to (5, 0). *)
Definition start : @constraintRRT.Motion State Control :=
  constraintRRT.mkMotion (at_xy 4 0) 0 0 None.
Definition oneStep : @constraintRRT.Sample State Control :=
  {| constraintRRT.nmotion := start;
     constraintRRT.rctrl := 1;
     constraintRRT.sampleTo := (1%Z, at_xy 5 0);
     constraintRRT.propagateWhileValid := (1%Z, [at_xy 5 0]) |}.
Definition seeded : @constraintRRT.Tree Q State Control :=
  {| constraintRRT.nn_ := [start];
     constraintRRT.solution := None;
     constraintRRT.approxsol := None;
     constraintRRT.approxdif := 1000000 |}.
(** Keep out of the square around (5, 0) from time 0 to time 10. *)
Definition forbidden : list (Constraint Q) :=
  [ {| getAgent := 0%nat;
       getPolygons := [footprint 2 2 5 0 0];
       getTimeRange := (0, 10) |} ].

(** As many controls as states. *)
Definition malformed : PathControl Q State Control :=
  path [at_xy 0 0] [1] [1].
End Example.

(** ** The rest of the low-level planner *)

Module LowLevel.
Section LowLevel.
Context {D : Type} `{DoubleOps D} {State Control : Type}.
#[local] Abbreviation Motion := (@constraintRRT.Motion State Control).
#[local] Abbreviation Tree := (@constraintRRT.Tree D State Control).
#[local] Abbreviation Sample := (@constraintRRT.Sample State Control).

Context (stateX stateY stateTheta : State -> D).
Context (disjoint : @polygon D -> @polygon D -> bool).
Context (isSatisfied : State -> bool * D).

Definition control (m : Motion) : Control :=
  match m with constraintRRT.mkMotion _ c _ _ => c end.

(** [while (const base::State *st = pis_.nextStart())]: every start
    state becomes a parentless node with the null control and no
    steps. *)
Fixpoint addStarts (nullControl : Control) (nn : list Motion)
    (starts : list State) : list Motion :=
  match starts with
  | [] => nn
  | st :: starts' =>
    addStarts nullControl
      (nn ++ [constraintRRT.mkMotion st nullControl 0 None]) starts'
  end.

(** [mpath]: the solution node, its parent, ... up to the root. *)
Fixpoint mpath (solution : Motion) : list Motion :=
  match solution with
  | constraintRRT.mkMotion _ _ _ (Some p) => solution :: mpath p
  | constraintRRT.mkMotion _ _ _ None => [solution]
  end.

(** One pass of [for (int i = mpath.size() - 1; i >= 0; --i)]. *)
Definition appendMotion (siC_ : SpaceInformation D State Control)
    (path : PathControl D State Control) (m : Motion)
    : PathControl D State Control :=
  match constraintRRT.parent m with
  | Some _ =>
    append3 path (constraintRRT.state m) (control m)
      (dmul (d_of_int (constraintRRT.steps m)) (getPropagationStepSize siC_))
  | None => append1 path (constraintRRT.state m)
  end.

(** The solution path: the nodes of [mpath] from the root down. *)
Definition solutionPath (siC_ : SpaceInformation D State Control)
    (solution : Motion) : PathControl D State Control :=
  foldl (appendMotion siC_) (emptyPath siC_) (reverse (mpath solution)).

(** [pdef_->addSolutionPath(path, approximate, approxdif, getName())]. *)
Record Report : Type := {
  reportedPath : PathControl D State Control;
  reportedApproximate : bool;
  reportedDifference : D
}.

Record Outcome : Type := {
  status : PlannerStatus;
  report : option Report;
  tree : list Motion
}.

(** [constraintRRT::solve] from its first line to its [return]: [nn0]
    is the tree at entry, [starts] are the start states the problem
    definition hands out, [infinity] is the initial [approxdif], and the
    main loop runs on [samples]. *)
Definition plan (addIntermediateStates_ : bool) (a_ : option (Agent D))
    (siC_ : SpaceInformation D State Control)
    (constraints_ : list (Constraint D)) (infinity : D)
    (nullControl : Control) (nn0 : list Motion) (starts : list State)
    (samples : list Sample) : result Outcome :=
  let nn := addStarts nullControl nn0 starts in
  if decide (length nn = 0)%nat then
    Ok {| status := INVALID_START; report := None; tree := nn |}
  else
    t ← constraintRRT.solve stateX stateY stateTheta disjoint isSatisfied
          addIntermediateStates_ a_ siC_ constraints_
          {| constraintRRT.nn_ := nn; constraintRRT.solution := None;
             constraintRRT.approxsol := None;
             constraintRRT.approxdif := infinity |} samples;
    let '(solution, approximate) :=
      match constraintRRT.solution t with
      | Some m => (Some m, false)
      | None => (constraintRRT.approxsol t, true)
      end in
    match solution with
    | Some m =>
      Ok {| status := mkStatus true approximate;
            report := Some {| reportedPath := solutionPath siC_ m;
                              reportedApproximate := approximate;
                              reportedDifference := constraintRRT.approxdif t |};
            tree := constraintRRT.nn_ t |}
    | None =>
      Ok {| status := mkStatus false approximate; report := None;
            tree := constraintRRT.nn_ t |}
    end.
End LowLevel.
End LowLevel.

(** ** What the bookkeeping of the high-level planner hands over *)

Module Bookkeeping.
Section Bookkeeping.
Context {D : Type} `{DoubleOps D} {State Control : Type}.

(** The path put together from a solution trajectory [mpath]: its
    states but the last, its controls and durations but the first. *)
Definition delivered (si : SpaceInformation D State Control)
    (mpath : PathControl D State Control) : PathControl D State Control :=
  {| getSpaceInformation := si;
     getStates := take (length (getControls mpath)) (getStates mpath);
     getControls := drop 1 (getControls mpath);
     getControlDurations := drop 1 (getControlDurations mpath) |}.
End Bookkeeping.
End Bookkeeping.

(** ** Further scenarios *)

Module Scenario.
Import Example.
Local Open Scope Q_scope.

(** Scenario S1: two agents in disjoint corridors, y = 0 and y = 5. *)
Definition lowerLane : PathControl Q State Control :=
  path [at_xy 0 0; at_xy 1 0; at_xy 2 0] [1; 1] [1; 1].
Definition upperLane : PathControl Q State Control :=
  path [at_xy 0 5; at_xy 1 5; at_xy 2 5] [1; 1] [1; 1].

(** A setup whose low-level planner finds nothing in its budget. *)
Definition stuck : @KD_CBS.SimpleSetup Q State Control :=
  {| KD_CBS.ss_si := si; KD_CBS.ss_solve := None |}.

(** A trajectory whose duration rounds to a negative step count. *)
Definition backwards : PathControl Q State Control :=
  path [at_xy 0 0; at_xy 1 0] [1] [-2].

(** Keep out of the square around (50, 0) from time 0 to time 9. *)
Definition farAway : list (Constraint Q) :=
  [ {| getAgent := 0%nat;
       getPolygons := [footprint 2 2 50 0 0];
       getTimeRange := (0, 9) |} ].

(** Two iterations from the node at (4, 0): one step to (5, 0), then
    from there two steps to (7, 0). *)
Definition second : @constraintRRT.Sample State Control :=
  {| constraintRRT.nmotion :=
       constraintRRT.mkMotion (at_xy 5 0) 1 1 (Some start);
     constraintRRT.rctrl := 1;
     constraintRRT.sampleTo := (2%Z, at_xy 7 0);
     constraintRRT.propagateWhileValid := (2%Z, [at_xy 6 0; at_xy 7 0]) |}.

(** Three footprints in a row: the first apart, the other two
    overlapping. *)
Definition threeShapes : list (@polygon Q) :=
  [footprint 2 2 0 0 0; footprint 2 2 10 0 0; footprint 2 2 11 0 0].

(** A goal reached at x = 7. *)
Definition nearGoal (s : State) : bool * Q :=
  (Qle_bool 7 (stateX s), Qred (7 - stateX s)).
End Scenario.

(** * Properties *)

(** ** Reads and faults *)

Lemma at_lookup {A : Type} (v : list A) (i : nat) (a : A) :
  v !! i = Some a -> at_ v i = Ok a.
Proof. intros E. unfold at_. now rewrite E. Qed.

Lemma bind_Ok {A B : Type} (m : result A) (f : A -> result B) (b : B) :
  m ≫= f = Ok b -> exists a, m = Ok a /\ f a = Ok b.
Proof. destruct m as [a|e]; simpl; [eauto | discriminate]. Qed.

(** ** The interpolator *)

Section Interpolation.
Context {D : Type} `{DoubleOps D} {State Control : Type}.
#[local] Abbreviation PathControl := (PathControl D State Control).
#[local] Abbreviation buffers := (@KD_CBS.buffers D State Control).
Implicit Types (p : PathControl) (acc b : buffers).
Import Spec.

Lemma glue_nil acc : glue acc (flatten []) = acc.
Proof. destruct acc as [[? ?] ?]. unfold glue; simpl. now rewrite !app_nil_r. Qed.

Lemma glue_cons acc b bs :
  glue acc (flatten (b :: bs)) = glue (glue acc b) (flatten bs).
Proof.
  destruct acc as [[? ?] ?], b as [[? ?] ?]. unfold glue; simpl.
  now rewrite !app_assoc.
Qed.

Lemma length_rewrittenAll p :
  length (getStates p) = S (length (getControls p)) ->
  length (getControlDurations p) = length (getControls p) ->
  length (Spec.rewrittenAll p) = length (getControls p).
Proof.
  intros Hs Hd. unfold Spec.rewrittenAll, Spec.segments.
  rewrite length_map, !length_zip. lia.
Qed.

Lemma lookup_rewrittenAll p i s u d :
  getStates p !! i = Some s -> getControls p !! i = Some u ->
  getControlDurations p !! i = Some d ->
  Spec.rewrittenAll p !! i = Some (Spec.rewritten (getSpaceInformation p) s u d).
Proof.
  intros Es Eu Ed. unfold Spec.rewrittenAll, Spec.segments.
  rewrite list_lookup_fmap.
  assert (zip (zip (getStates p) (getControls p)) (getControlDurations p) !! i
          = Some (s, u, d)) as ->; [|reflexivity].
  apply lookup_zip_with_Some. exists (s, u), d. repeat split; [|assumption].
  apply lookup_zip_with_Some. exists s, u. repeat split; assumption.
Qed.

(** The loop, started at index [i] with [n] segments left, appends the
    rewritten segments [i], [i+1], ... to its accumulators. *)
Lemma interpolate_loop_spec p n i acc :
  (i + n)%nat = length (getControls p) ->
  length (getStates p) = S (length (getControls p)) ->
  length (getControlDurations p) = length (getControls p) ->
  (forall d, d ∈ getControlDurations p ->
     0 <= KD_CBS.segment_steps (getPropagationStepSize (getSpaceInformation p)) d) ->
  KD_CBS.interpolate_loop p (getPropagationStepSize (getSpaceInformation p)) n i acc
  = Ok (glue acc (flatten (drop i (Spec.rewrittenAll p)))).
Proof.
  intros Hn Hs Hd Hpos. revert i acc Hn.
  induction n as [|n IH]; intros i acc Hn.
  - simpl. rewrite drop_ge by (rewrite length_rewrittenAll by assumption; lia).
    now rewrite glue_nil.
  - destruct (lookup_lt_is_Some_2 (getControlDurations p) i) as [d Ed]; [lia|].
    destruct (lookup_lt_is_Some_2 (getStates p) i) as [s Es]; [lia|].
    destruct (lookup_lt_is_Some_2 (getControls p) i) as [u Eu]; [lia|].
    pose proof (lookup_rewrittenAll p i s u d Es Eu Ed) as Er.
    rewrite (drop_S _ _ _ Er), glue_cons.
    destruct acc as [[nS nC] nD]. simpl.
    rewrite (at_lookup _ _ _ Ed); simpl.
    assert (0 <= KD_CBS.segment_steps (getPropagationStepSize (getSpaceInformation p)) d)
      as Hd0 by (apply Hpos; eapply list_elem_of_lookup_2; eassumption).
    destruct (Z.ltb_spec (KD_CBS.segment_steps (getPropagationStepSize (getSpaceInformation p)) d) 0)
      as [Hneg|_]; [lia|].
    rewrite (at_lookup _ _ _ Es), (at_lookup _ _ _ Eu); simpl.
    unfold Spec.rewritten.
    destruct (Z.leb_spec (KD_CBS.segment_steps (getPropagationStepSize (getSpaceInformation p)) d) 1)
      as [Hle|Hgt].
    + rewrite IH by lia. reflexivity.
    + rewrite IH by lia. unfold glue; simpl.
      replace (Z.to_nat (KD_CBS.segment_steps (getPropagationStepSize (getSpaceInformation p)) d))
        with (S (Z.to_nat (KD_CBS.segment_steps (getPropagationStepSize (getSpaceInformation p)) d - 1)))
        by lia.
      reflexivity.
Qed.

Lemma last_state p :
  length (getStates p) = S (length (getControls p)) ->
  exists s, getStates p !! length (getControls p) = Some s /\
            last (getStates p) = Some s.
Proof.
  intros Hs.
  destruct (lookup_lt_is_Some_2 (getStates p) (length (getControls p)))
    as [s Es]; [lia|].
  exists s. split; [assumption|].
  rewrite last_lookup, Hs. exact Es.
Qed.

(** On a well-formed trajectory the code computes the trajectory of
    section 4.4. *)
Lemma interpolate_refines p :
  length (getStates p) = S (length (getControls p)) ->
  length (getControlDurations p) = length (getControls p) ->
  Forall (fun d => 0 <= KD_CBS.segment_steps
                          (getPropagationStepSize (getSpaceInformation p)) d)
         (getControlDurations p) ->
  KD_CBS.interpolate p = Ok (interpolated p).
Proof.
  intros Hs Hd Hpos. unfold KD_CBS.interpolate.
  destruct (decide _) as [Hle|_]; [lia|].
  rewrite (interpolate_loop_spec p _ 0 ([], [], [])); try assumption;
    [|reflexivity | now apply Forall_forall].
  destruct (last_state p Hs) as (s & Es & El).
  rewrite drop_0. unfold interpolated. rewrite El.
  destruct (flatten (rewrittenAll p)) as [[nS nC] nD] eqn:Ef. simpl.
  rewrite (at_lookup _ _ _ Es). reflexivity.
Qed.

Lemma rewritten_nonempty (si : SpaceInformation D State Control)
    (s : State) (u : Control) (d : D) :
  (1 <= length (rewritten si s u d).1.1)%nat /\
  (1 <= length (rewritten si s u d).1.2)%nat /\
  hd_error (rewritten si s u d).1.1 = Some s.
Proof.
  unfold rewritten. destruct (Z.leb_spec (KD_CBS.segment_steps (getPropagationStepSize si) d) 1).
  - simpl. repeat split; lia.
  - simpl. rewrite length_replicate. repeat split; lia.
Qed.

Lemma length_concat_ge {A B : Type} (f : B -> list A) (l : list B) :
  Forall (fun x => 1 <= length (f x))%nat l ->
  (length l <= length (concat (map f l)))%nat.
Proof.
  induction 1 as [|x l Hx _ IH]; simpl; [lia|].
  rewrite length_app. lia.
Qed.

Lemma rewrittenAll_nonempty p :
  Forall (fun b => 1 <= length b.1.1 /\ 1 <= length b.1.2)%nat (rewrittenAll p).
Proof.
  unfold rewrittenAll. apply Forall_forall. intros b Hb.
  apply list_elem_of_fmap in Hb as ([[s u] d] & -> & _).
  pose proof (rewritten_nonempty (getSpaceInformation p) s u d). tauto.
Qed.

(** The interpolated trajectory is at least as long as the original. *)
Lemma interpolated_never_shrinks p :
  length (getStates p) = S (length (getControls p)) ->
  length (getControlDurations p) = length (getControls p) ->
  (length (getStates p) <= length (getStates (interpolated p)))%nat /\
  (length (getControls p) <= length (getControls (interpolated p)))%nat.
Proof.
  intros Hs Hd. pose proof (length_rewrittenAll p Hs Hd) as Hl.
  pose proof (rewrittenAll_nonempty p) as Hne.
  destruct (last_state p Hs) as (s & _ & El).
  unfold interpolated, flatten; simpl. rewrite El, length_app; simpl.
  split.
  - rewrite Hs, <- Hl, Nat.add_1_r. apply le_n_S.
    apply (length_concat_ge (fun b : buffers => b.1.1)).
    eapply Forall_impl; [exact Hne|]. simpl; tauto.
  - rewrite <- Hl.
    apply (length_concat_ge (fun b : buffers => b.1.2)).
    eapply Forall_impl; [exact Hne|]. simpl; tauto.
Qed.

Lemma rewritten_balanced (si : SpaceInformation D State Control)
    (s : State) (u : Control) (d : D) :
  (forall s u n, 1 < n -> length (propagate si s u n) = Z.to_nat n) ->
  length (rewritten si s u d).1.1 = length (rewritten si s u d).1.2 /\
  length (rewritten si s u d).2 = length (rewritten si s u d).1.2.
Proof.
  intros Hprop. unfold rewritten.
  destruct (Z.leb_spec (KD_CBS.segment_steps (getPropagationStepSize si) d) 1)
    as [Hle|Hgt]; simpl; [split; reflexivity|].
  rewrite !length_replicate, removelast_firstn_len, length_firstn, Hprop by lia.
  split; lia.
Qed.

Lemma length_concat_eq {A B C : Type} (f : C -> list A) (g : C -> list B)
    (l : list C) :
  Forall (fun x => length (f x) = length (g x)) l ->
  length (concat (map f l)) = length (concat (map g l)).
Proof.
  induction 1 as [|x l Hx _ IH]; simpl; [reflexivity|].
  rewrite !length_app. lia.
Qed.

(** When the dynamics hand back one state per step, the interpolated
    trajectory again has one state more than controls and a duration
    per control. *)
Lemma interpolated_balanced p :
  length (getStates p) = S (length (getControls p)) ->
  (forall s u n, 1 < n ->
     length (propagate (getSpaceInformation p) s u n) = Z.to_nat n) ->
  length (getStates (interpolated p)) = S (length (getControls (interpolated p))) /\
  length (getControlDurations (interpolated p))
  = length (getControls (interpolated p)).
Proof.
  intros Hs Hprop. destruct (last_state p Hs) as (s & _ & El).
  assert (Forall (fun b : buffers =>
                    length b.1.1 = length b.1.2 /\ length b.2 = length b.1.2)
                 (rewrittenAll p)) as Hbal.
  { unfold rewrittenAll. apply Forall_forall. intros b Hb.
    apply list_elem_of_fmap in Hb as ([[s' u'] d'] & -> & _).
    now apply rewritten_balanced. }
  unfold interpolated, flatten; simpl. rewrite El, length_app; simpl. split.
  - rewrite (length_concat_eq (fun b : buffers => b.1.1) (fun b : buffers => b.1.2)).
    + apply Nat.add_1_r.
    + eapply Forall_impl; [exact Hbal|]. simpl; tauto.
  - apply (length_concat_eq (fun b : buffers => b.2) (fun b : buffers => b.1.2)).
    eapply Forall_impl; [exact Hbal|]. simpl; tauto.
Qed.

(** The interpolated trajectory starts where the original starts. *)
Lemma interpolated_start p :
  length (getStates p) = S (length (getControls p)) ->
  length (getControlDurations p) = length (getControls p) ->
  hd_error (getStates (interpolated p)) = hd_error (getStates p).
Proof.
  intros Hs Hd. unfold interpolated, flatten, rewrittenAll, segments; simpl.
  destruct p as [si ss us ds]; simpl in *.
  destruct ss as [|s0 ss]; [discriminate|].
  destruct us as [|u0 us]; simpl in *.
  - destruct ss; [reflexivity | discriminate].
  - destruct ds as [|d0 ds]; [discriminate|]. simpl.
    pose proof (rewritten_nonempty si s0 u0 d0) as (_ & _ & Hh).
    destruct (rewritten si s0 u0 d0).1.1 as [|x xs]; [discriminate|].
    simpl in *. exact Hh.
Qed.
End Interpolation.

(** C6: on a trajectory with one state more than controls (and a
    duration per control, none rounding to a negative step count),
    [interpolate] returns the trajectory in which every segment with
    [steps <= 1] is copied and every other segment is replaced by [steps]
    sub-segments of duration Delta, their states re-propagated from
    [(s_i, u_i, steps)] and their controls copies of [u_i], the original
    endpoint kept; the start state is preserved and neither the states
    nor the controls become fewer. *)
Theorem interpolate_rewrites_segments
    {D : Type} `{DoubleOps D} {State Control : Type}
    (p : PathControl D State Control) :
  length (getStates p) = S (length (getControls p)) ->
  length (getControlDurations p) = length (getControls p) ->
  Forall (fun d => 0 <= KD_CBS.segment_steps
                          (getPropagationStepSize (getSpaceInformation p)) d)
         (getControlDurations p) ->
  KD_CBS.interpolate p = Ok (Spec.interpolated p) /\
  hd_error (getStates (Spec.interpolated p)) = hd_error (getStates p) /\
  (length (getStates p) <= length (getStates (Spec.interpolated p)))%nat /\
  (length (getControls p) <= length (getControls (Spec.interpolated p)))%nat.
Proof.
  intros Hs Hd Hpos. split; [|split].
  - now apply interpolate_refines.
  - now apply interpolated_start.
  - now apply interpolated_never_shrinks.
Qed.

Lemma interpolate_rewrites_segments_witness :
  KD_CBS.interpolate Example.twoSegments
  = Ok (Example.path
          [Example.at_xy 0 0; Example.at_xy 1 0; Example.at_xy 2 0;
           Example.at_xy 3 0; Example.at_xy 4 0]
          [1%Q; 1%Q; 1%Q; 1%Q] [1%Q; 1%Q; 1%Q; 1%Q]).
Proof.
  destruct (interpolate_rewrites_segments Example.twoSegments) as [E _].
  - reflexivity.
  - reflexivity.
  - repeat constructor; vm_compute; discriminate.
  - rewrite E. vm_compute. reflexivity.
Defined.

(** C10: a path whose state count does not exceed its control count is
    returned as it is: states, controls and durations are untouched. *)
Theorem interpolate_malformed_unchanged
    {D : Type} `{DoubleOps D} {State Control : Type}
    (p : PathControl D State Control) :
  (length (getStates p) <= length (getControls p))%nat ->
  KD_CBS.interpolate p = Ok p.
Proof.
  intros Hle. unfold KD_CBS.interpolate.
  destruct (decide _) as [_|Hgt]; [reflexivity | contradiction].
Qed.

Lemma interpolate_malformed_unchanged_witness :
  (length (getStates Example.malformed)
   <= length (getControls Example.malformed))%nat /\
  KD_CBS.interpolate Example.malformed = Ok Example.malformed.
Proof.
  split; [simpl; lia|].
  apply interpolate_malformed_unchanged. simpl; lia.
Defined.

(** ** Constraint satisfaction *)

Section Constraints.
Context {D : Type} `{DoubleOps D} {State Control : Type}.
Context (stateX stateY stateTheta : State -> D).
Context (disjoint : @polygon D -> @polygon D -> bool).
#[local] Abbreviation Motion := (@constraintRRT.Motion State Control).

Lemma to_int32_idemp (a b : Z) : to_int32 (to_int32 a + b) = to_int32 (a + b).
Proof.
  unfold to_int32. f_equal.
  replace ((a + 2 ^ 31) mod 2 ^ 32 - 2 ^ 31 + b + 2 ^ 31)
    with ((a + 2 ^ 31) mod 2 ^ 32 + b) by lia.
  rewrite Zplus_mod_idemp_l. f_equal. lia.
Qed.

Lemma to_int32_small (z : Z) : - 2 ^ 31 <= z < 2 ^ 31 -> to_int32 z = z.
Proof. intros Hz. unfold to_int32. rewrite Z.mod_small; lia. Qed.

Lemma to_int32_range (z : Z) : - 2 ^ 31 <= to_int32 z < 2 ^ 31.
Proof.
  unfold to_int32.
  pose proof (Z.mod_pos_bound (z + 2 ^ 31) (2 ^ 32) ltac:(lia)). lia.
Qed.

(** The counter of the loop is the step sum, wrapped to an [int]. *)
Lemma countSteps_wrap :
  forall (n : Motion) (acc : Z),
    to_int32 (constraintRRT.countSteps n acc) = to_int32 (acc + Spec.ancestorSteps n).
Proof.
  fix IH 1. intros [s c k [p|]] acc; simpl.
  - rewrite IH, to_int32_idemp. f_equal. lia.
  - f_equal. lia.
Qed.

Lemma countSteps_range :
  forall (n : Motion) (acc : Z),
    - 2 ^ 31 <= acc < 2 ^ 31 ->
    - 2 ^ 31 <= constraintRRT.countSteps n acc < 2 ^ 31.
Proof.
  fix IH 1. intros [s c k [p|]] acc Hacc; simpl.
  - apply IH, to_int32_range.
  - exact Hacc.
Qed.

Lemma countSteps_exact (n : Motion) :
  - 2 ^ 31 <= Spec.ancestorSteps n < 2 ^ 31 ->
  constraintRRT.countSteps n 0 = Spec.ancestorSteps n.
Proof.
  intros Hn.
  rewrite <- (to_int32_small (constraintRRT.countSteps n 0))
    by (apply countSteps_range; lia).
  rewrite countSteps_wrap. now apply to_int32_small.
Qed.

Lemma respects_true (a : Agent D) (n : Motion) (currTime : D) (c : Constraint D) :
  constraintRRT.respects stateX stateY stateTheta disjoint a n currTime c = true <->
  (constraintRRT.inTimeRange c currTime = true ->
   forall p, p ∈ getPolygons c ->
     disjoint (footprint (carWidth a) (carHeight a)
                 (stateX (constraintRRT.state n)) (stateY (constraintRRT.state n))
                 (stateTheta (constraintRRT.state n))) p = true).
Proof.
  unfold constraintRRT.respects.
  destruct (constraintRRT.inTimeRange c currTime).
  - rewrite forallb_forall. split.
    + intros Hall _ p Hp. apply Hall. now apply list_elem_of_In.
    + intros Hall p Hp. apply Hall; [reflexivity|]. now apply list_elem_of_In.
  - split; [discriminate | reflexivity].
Qed.
End Constraints.

(** C5: with the agent object set (and the step sum within [int]),
    [satisfiesConstraints] returns, and it returns [true] exactly when,
    for every constraint of the list whose time window contains the
    time of the node (the step sum along its ancestor chain times
    Delta), the footprint of the node is disjoint from every polygon of
    that constraint. *)
Theorem satisfiesConstraints_iff
    {D : Type} `{DoubleOps D} {State Control : Type}
    (stateX stateY stateTheta : State -> D)
    (disjoint : @polygon D -> @polygon D -> bool)
    (a : Agent D) (siC_ : SpaceInformation D State Control)
    (constraints_ : list (Constraint D))
    (m : @constraintRRT.Motion State Control) :
  - 2 ^ 31 <= Spec.ancestorSteps m < 2 ^ 31 ->
  let tau := dmul (d_of_int (Spec.ancestorSteps m)) (getPropagationStepSize siC_) in
  let shape := footprint (carWidth a) (carHeight a)
                 (stateX (constraintRRT.state m)) (stateY (constraintRRT.state m))
                 (stateTheta (constraintRRT.state m)) in
  exists b : bool,
    constraintRRT.satisfiesConstraints stateX stateY stateTheta disjoint
      (Some a) siC_ constraints_ m = Ok b /\
    (b = true <->
     forall c, c ∈ constraints_ ->
       constraintRRT.inTimeRange c tau = true ->
       forall p, p ∈ getPolygons c -> disjoint shape p = true).
Proof.
  intros Hrange tau shape. eexists. split; [reflexivity|].
  rewrite (countSteps_exact m Hrange). fold tau.
  rewrite forallb_forall. split.
  - intros Hall c Hc. apply respects_true, Hall. now apply list_elem_of_In.
  - intros Hall c Hc. apply respects_true, Hall. now apply list_elem_of_In.
Qed.

Lemma satisfiesConstraints_iff_witness :
  constraintRRT.satisfiesConstraints Example.stateX Example.stateY
    Example.stateTheta Example.disjoint (Some (Example.car "a0"))
    Example.si Example.keepOut Example.leaf = Ok false.
Proof.
  destruct (satisfiesConstraints_iff Example.stateX Example.stateY
              Example.stateTheta Example.disjoint (Example.car "a0")
              Example.si Example.keepOut Example.leaf) as (b & E & _).
  - simpl. lia.
  - rewrite E. vm_compute in E. congruence.
Defined.

(** ** The orchestrator *)

Section Orchestrator.
Context {D : Type} `{DoubleOps D} {State Control : Type}.
Context (stateX stateY stateTheta : State -> D).
Context (disjoint : @polygon D -> @polygon D -> bool).
#[local] Abbreviation SimpleSetup := (@KD_CBS.SimpleSetup D State Control).
#[local] Abbreviation conflictNode := (@KD_CBS.conflictNode D State Control).
Context (popHead : list conflictNode -> option (conflictNode * list conflictNode)).

#[local] Abbreviation stepOf :=
  (fun ss : SimpleSetup => getPropagationStepSize (KD_CBS.ss_si ss)).

(** If two steps differ, one of them differs from the first agent's. *)
Lemma mismatch_found (mmpp_ : list SimpleSetup) (ss0 : SimpleSetup) :
  (forall a b c : D, dne a b = true -> dne a c = true \/ dne b c = true) ->
  (exists ssi ssj, ssi ∈ mmpp_ /\ ssj ∈ mmpp_ /\ dne (stepOf ssi) (stepOf ssj) = true) ->
  existsb (fun ss => dne (stepOf ss) (stepOf ss0)) mmpp_ = true.
Proof.
  intros Hco (ssi & ssj & Hi & Hj & Hne).
  apply existsb_exists.
  destruct (Hco _ _ (stepOf ss0) Hne) as [Hd|Hd].
  - exists ssi. split; [now apply list_elem_of_In | exact Hd].
  - exists ssj. split; [now apply list_elem_of_In | exact Hd].
Qed.

#[local] Existing Instance KD_CBS.run_bind.

#[local] Abbreviation run := (@KD_CBS.run D State Control).

Lemma run_bind_Ok {A B : Type} (m : run A) (f : A -> run B)
    (t : list (@KD_CBS.event D State Control)) (b : B) :
  m ≫= f = (t, Ok b) ->
  exists t1 a t2, m = (t1, Ok a) /\ f a = (t2, Ok b) /\ t = t1 ++ t2.
Proof.
  destruct m as [t1 [a|e]]; simpl; [|discriminate].
  destruct (f a) as [t2 r] eqn:Ef. intros [= <- ->]. eauto 6.
Qed.

(** Whatever [solve] returns, the status is not approximate. *)
Lemma solve_never_approximate (agents : list (Agent D))
    (mmpp_ : list SimpleSetup) (queue_ : list conflictNode) (ptc : bool)
    (t : list (@KD_CBS.event D State Control)) (st : PlannerStatus) :
  KD_CBS.solve stateX stateY stateTheta disjoint popHead agents mmpp_ queue_ ptc
  = (t, Ok st) ->
  approximate st = false.
Proof.
  unfold KD_CBS.solve. intros E.
  apply run_bind_Ok in E as (t1 & ss0 & t2 & _ & E & _).
  destruct (existsb _ mmpp_); [injection E as _ <-; reflexivity|].
  apply run_bind_Ok in E as (t3 & root_sol & t4 & _ & E & _).
  destruct (decide (length _ = 0)%nat); [injection E as _ <-; reflexivity|].
  apply run_bind_Ok in E as (t5 & sol & t6 & _ & E & _).
  destruct sol as [node|]; [|injection E as _ <-; reflexivity].
  apply run_bind_Ok in E as (t7 & sv & t8 & _ & E & _).
  injection E as _ <-. now destruct sv.
Qed.
End Orchestrator.

Lemma Q_dne_cotransitive (a b c : Q) :
  dne a b = true -> dne a c = true \/ dne b c = true.
Proof.
  simpl. intros Hab.
  destruct (Qeq_bool a c) eqn:Eac; [|now left].
  destruct (Qeq_bool b c) eqn:Ebc; [|now right].
  apply Qeq_bool_iff in Eac, Ebc.
  assert (Qeq_bool a b = true) as E
    by (apply Qeq_bool_iff; rewrite Eac, Ebc; reflexivity).
  rewrite E in Hab. discriminate.
Defined.

(** C8: if two agents advertise different propagation steps, [solve]
    returns [INVALID_START] at once: the low-level planner has been
    called for no agent and no problem definition has received a path.
    ([!=] on doubles is only assumed to be what it is in C++: two values
    that both equal a third do not differ.) *)
Theorem solve_step_mismatch
    {D : Type} `{DoubleOps D} {State Control : Type}
    (stateX stateY stateTheta : State -> D)
    (disjoint : @polygon D -> @polygon D -> bool)
    (popHead : list (@KD_CBS.conflictNode D State Control) ->
               option (KD_CBS.conflictNode * list KD_CBS.conflictNode))
    (agents : list (Agent D))
    (mmpp_ : list (@KD_CBS.SimpleSetup D State Control))
    (queue_ : list (@KD_CBS.conflictNode D State Control)) (ptc : bool) :
  (forall a b c : D, dne a b = true -> dne a c = true \/ dne b c = true) ->
  (exists ssi ssj, ssi ∈ mmpp_ /\ ssj ∈ mmpp_ /\
     dne (getPropagationStepSize (KD_CBS.ss_si ssi))
         (getPropagationStepSize (KD_CBS.ss_si ssj)) = true) ->
  KD_CBS.solve stateX stateY stateTheta disjoint popHead agents mmpp_ queue_ ptc
  = ([], Ok INVALID_START) /\
  solved INVALID_START = false.
Proof.
  intros Hco Hex. split; [|reflexivity].
  unfold KD_CBS.solve.
  destruct mmpp_ as [|ss0 rest] eqn:Em.
  - destruct Hex as (ssi & _ & Hi & _). now apply elem_of_nil in Hi.
  - rewrite <- Em in *. assert (at_ mmpp_ 0%nat = Ok ss0) as -> by now rewrite Em.
    simpl.
    pose proof (mismatch_found mmpp_ ss0 Hco Hex) as Hfound.
    simpl in Hfound. rewrite Hfound. reflexivity.
Qed.

Lemma solve_step_mismatch_witness :
  KD_CBS.solve Example.stateX Example.stateY Example.stateTheta
    Example.disjoint Example.popHead
    [Example.car "a0"; Example.car "a1"] Example.mismatched [] false
  = ([], Ok INVALID_START) /\
  solved INVALID_START = false.
Proof.
  apply solve_step_mismatch.
  - exact Q_dne_cotransitive.
  - exists {| KD_CBS.ss_si := Example.siWithStep (1 # 10);
              KD_CBS.ss_solve :=
                Some (Example.path [Example.at_xy 0 0; Example.at_xy 1 0] [1%Q] [1%Q]) |},
           {| KD_CBS.ss_si := Example.siWithStep (2 # 10);
              KD_CBS.ss_solve :=
                Some (Example.path [Example.at_xy 0 5; Example.at_xy 1 5] [1%Q] [1%Q]) |}.
    split; [|split].
    + apply list_elem_of_here.
    + apply list_elem_of_further, list_elem_of_here.
    + reflexivity.
Defined.

(** ** The conflict detector *)

Section Detector.
Context {D : Type} `{DoubleOps D} {State Control : Type}.
Context (stateX stateY stateTheta : State -> D).
Context (disjoint : @polygon D -> @polygon D -> bool).
#[local] Abbreviation Plan := (@KD_CBS.Plan D State Control).
#[local] Abbreviation shapeOf := (KD_CBS.agentShape stateX stateY stateTheta).
#[local] Abbreviation collides := (Spec.collides stateX stateY stateTheta disjoint).
#[local] Abbreviation overlap := (Spec.overlap stateX stateY stateTheta disjoint).
Implicit Types (pl : Plan) (agents : list (Agent D)).

Lemma stateAt_cons_0 pl (p : PathControl D State Control) k :
  Spec.stateAt (p :: pl) 0 k = getStates p !! k.
Proof. reflexivity. Qed.

Lemma stateAt_cons_S pl (p : PathControl D State Control) i k :
  Spec.stateAt (p :: pl) (S i) k = Spec.stateAt pl i k.
Proof. reflexivity. Qed.

(** The valid agents at step [k] are the slots with a state at [k],
    each listed once, with that state at the same position. *)
Lemma validAtK_spec pl : forall i0 k ss idxs,
  KD_CBS.validAtK pl i0 k = (ss, idxs) ->
  length ss = length idxs /\
  (length idxs <= length pl)%nat /\
  (forall pos i, idxs !! pos = Some i ->
     (i0 <= i < i0 + length pl)%nat /\
     exists s, ss !! pos = Some s /\ Spec.stateAt pl (i - i0) k = Some s) /\
  (forall j s, Spec.stateAt pl j k = Some s ->
     exists pos, idxs !! pos = Some (i0 + j)%nat) /\
  (forall pos1 pos2 i,
     idxs !! pos1 = Some i -> idxs !! pos2 = Some i -> pos1 = pos2).
Proof.
  induction pl as [|p pl IH]; intros i0 k ss idxs E; simpl in E.
  - injection E as <- <-. split; [reflexivity|]. split; [reflexivity|].
    split; [|split].
    + intros pos i Hi. destruct pos; discriminate.
    + intros j s Hs. destruct j; discriminate.
    + intros pos1 pos2 i Hi. destruct pos1; discriminate.
  - destruct (KD_CBS.validAtK pl (S i0) k) as [ss' idxs'] eqn:E'.
    destruct (IH _ _ _ _ E') as (Hlen & Hle & Hsound & Hcompl & Hinj).
    destruct (getStates p !! k) as [s0|] eqn:Ep; injection E as <- <-.
    + split; [simpl; lia|]. split; [simpl; lia|]. split; [|split].
      * intros [|pos] i Hi; simpl in Hi.
        -- injection Hi as <-. split; [simpl; lia|].
           exists s0. split; [reflexivity|].
           rewrite Nat.sub_diag, stateAt_cons_0. exact Ep.
        -- destruct (Hsound _ _ Hi) as (Hr & s & Hs & Hst).
           split; [simpl; lia|]. exists s. split; [exact Hs|].
           replace (i - i0)%nat with (S (i - S i0)) by lia.
           rewrite stateAt_cons_S. exact Hst.
      * intros [|j] s Hs.
        -- exists 0%nat. simpl. f_equal. lia.
        -- rewrite stateAt_cons_S in Hs. destruct (Hcompl _ _ Hs) as [pos Hpos].
           exists (S pos). simpl. rewrite Hpos. f_equal. lia.
      * intros [|pos1] [|pos2] i H1 H2; simpl in H1, H2.
        -- reflexivity.
        -- injection H1 as <-. destruct (Hsound _ _ H2) as [Hr _]. lia.
        -- injection H2 as <-. destruct (Hsound _ _ H1) as [Hr _]. lia.
        -- f_equal. eapply Hinj; eassumption.
    + split; [exact Hlen|]. split; [simpl; lia|]. split; [|split].
      * intros pos i Hi. destruct (Hsound _ _ Hi) as (Hr & s & Hs & Hst).
        split; [simpl; lia|]. exists s. split; [exact Hs|].
        replace (i - i0)%nat with (S (i - S i0)) by lia.
        rewrite stateAt_cons_S. exact Hst.
      * intros [|j] s Hs.
        -- rewrite stateAt_cons_0 in Hs. congruence.
        -- rewrite stateAt_cons_S in Hs. destruct (Hcompl _ _ Hs) as [pos Hpos].
           exists pos. rewrite Hpos. f_equal. lia.
      * exact Hinj.
Qed.

(** When no trajectory has ended at step [k], every slot is valid and
    positions are slots. *)
Lemma validAtK_all pl : forall i0 k,
  Forall (fun p => k < getStateCount p)%nat pl ->
  (KD_CBS.validAtK pl i0 k).2 = seq i0 (length pl).
Proof.
  induction pl as [|p pl IH]; intros i0 k Hall; [reflexivity|].
  inversion Hall as [|? ? Hp Hrest]; subst. simpl.
  specialize (IH (S i0) k Hrest).
  destruct (KD_CBS.validAtK pl (S i0) k) as [ss idxs]. simpl in IH.
  destruct (lookup_lt_is_Some_2 (getStates p) k Hp) as [s ->].
  simpl. now rewrite IH.
Qed.

Lemma buildShapes_spec agents : forall idxs ss,
  length ss = length idxs ->
  (forall i, i ∈ idxs -> i < length agents)%nat ->
  exists shapes,
    KD_CBS.buildShapes stateX stateY stateTheta agents ss idxs = Ok shapes /\
    length shapes = length idxs /\
    forall pos i s, idxs !! pos = Some i -> ss !! pos = Some s ->
      exists a, agents !! i = Some a /\ shapes !! pos = Some (shapeOf a s).
Proof.
  induction idxs as [|idx idxs IH]; intros ss Hlen Hin.
  - exists []. destruct ss; [|discriminate].
    repeat split. intros pos i s Hi. destruct pos; discriminate.
  - destruct ss as [|s0 ss]; [discriminate|]. simpl in Hlen.
    destruct (lookup_lt_is_Some_2 agents idx) as [a0 Ea];
      [apply Hin, list_elem_of_here|].
    destruct (IH ss) as (shapes & Eb & Hl & Hs); [lia| |].
    { intros i Hi. apply Hin. now apply list_elem_of_further. }
    exists (shapeOf a0 s0 :: shapes). simpl.
    rewrite (at_lookup _ _ _ Ea); simpl. rewrite Eb; simpl.
    split; [reflexivity|]. split; [lia|].
    intros [|pos] i s Hi Hss; simpl in Hi, Hss.
    + injection Hi as <-. injection Hss as <-. eauto.
    + eauto.
Qed.

Lemma elem_of_visitOrder (n pa pb : nat) :
  (pa, pb) ∈ KD_CBS.visitOrder n <-> (pa < n /\ pb < n)%nat.
Proof.
  unfold KD_CBS.visitOrder. rewrite list_elem_of_bind. split.
  - intros (ai & Hin & Hai). apply list_elem_of_bind in Hin as (aj & Hin & Haj).
    apply list_elem_of_singleton in Hin. injection Hin as -> ->.
    apply elem_of_seq in Hai, Haj. lia.
  - intros [Ha Hb]. exists pa. split; [|apply elem_of_seq; lia].
    apply list_elem_of_bind. exists pb. split; [apply list_elem_of_here|].
    apply elem_of_seq; lia.
Qed.

Lemma inCollision_true (shapes : list (@polygon D)) (pa pb : nat) :
  KD_CBS.inCollision disjoint shapes (pa, pb) = true <->
  pa ≠ pb /\ exists A B, shapes !! pa = Some A /\ shapes !! pb = Some B /\
                         disjoint A B = false.
Proof.
  unfold KD_CBS.inCollision; simpl. rewrite andb_true_iff, bool_decide_eq_true.
  split.
  - intros [Hne Hc]. split; [exact Hne|].
    destruct (shapes !! pa) as [A|]; [|discriminate].
    destruct (shapes !! pb) as [B|]; [|discriminate].
    exists A, B. repeat split. now apply negb_true_iff.
  - intros (Hne & A & B & -> & -> & Hd). split; [exact Hne|].
    now apply negb_true_iff.
Qed.

Lemma firstCollision_Some (shapes : list (@polygon D)) (pa pb : nat) :
  KD_CBS.firstCollision disjoint shapes = Some (pa, pb) ->
  pa ≠ pb /\ exists A B, shapes !! pa = Some A /\ shapes !! pb = Some B /\
                         disjoint A B = false.
Proof.
  unfold KD_CBS.firstCollision. intros Hf.
  apply find_some in Hf as [_ Hc]. now apply inCollision_true.
Qed.

Lemma firstCollision_None (shapes : list (@polygon D)) (pa pb : nat) A B :
  KD_CBS.firstCollision disjoint shapes = None ->
  pa ≠ pb -> shapes !! pa = Some A -> shapes !! pb = Some B ->
  disjoint A B = true.
Proof.
  unfold KD_CBS.firstCollision. intros Hf Hne Ha Hb.
  pose proof (find_none _ _ Hf (pa, pb)) as Hn.
  destruct (disjoint A B) eqn:Ed; [reflexivity|].
  assert (KD_CBS.inCollision disjoint shapes (pa, pb) = true) as Hc
    by (apply inCollision_true; eauto 6).
  rewrite Hn in Hc; [discriminate|].
  apply list_elem_of_In, elem_of_visitOrder.
  split; eapply lookup_lt_Some; eassumption.
Qed.

(** The [while] loop appends the overlap records from its first step
    on. *)
Lemma conflictWindow_spec agents (delta : D) (ai aj idx1 idx2 : nat)
    (a1 a2 : Agent D) :
  agents !! idx1 = Some a1 -> agents !! idx2 = Some a2 ->
  forall s1 s2 k c,
    KD_CBS.conflictWindow stateX stateY stateTheta disjoint agents delta
      ai aj idx1 idx2 k s1 s2 c
    = Ok (c ++ overlap a1 a2 ai aj delta k s1 s2).
Proof.
  intros E1 E2. induction s1 as [|x s1 IH]; intros s2 k c.
  - simpl. now rewrite app_nil_r.
  - destruct s2 as [|y s2]; simpl; [now rewrite app_nil_r|].
    rewrite (at_lookup _ _ _ E1), (at_lookup _ _ _ E2); simpl.
    destruct (disjoint (shapeOf a1 x) (shapeOf a2 y)); simpl.
    + now rewrite app_nil_r.
    + rewrite IH, <- app_assoc. reflexivity.
Qed.

Lemma overlap_stamps (a b : Agent D) (i j : nat) (delta : D) :
  forall s1 s2 k,
    map time (overlap a b i j delta k s1 s2)
    = Spec.stamps delta k (length (overlap a b i j delta k s1 s2)).
Proof.
  induction s1 as [|x s1 IH]; intros s2 k; [reflexivity|].
  destruct s2 as [|y s2]; [reflexivity|]. simpl.
  destruct (disjoint (shapeOf a x) (shapeOf b y)); simpl; [reflexivity|].
  rewrite IH. reflexivity.
Qed.

(** At step [k] the shapes are built, one per valid slot. *)
Lemma shapes_at_step agents pl k :
  (length pl <= length agents)%nat ->
  exists ss idxs shapes,
    KD_CBS.validAtK pl 0 k = (ss, idxs) /\
    KD_CBS.buildShapes stateX stateY stateTheta agents ss idxs = Ok shapes /\
    (length shapes = length idxs /\ length idxs <= length pl)%nat /\
    (forall pos A, shapes !! pos = Some A ->
       exists i a s, idxs !! pos = Some i /\ agents !! i = Some a /\
                     Spec.stateAt pl i k = Some s /\ A = shapeOf a s) /\
    (forall i a s, agents !! i = Some a -> Spec.stateAt pl i k = Some s ->
       exists pos, idxs !! pos = Some i /\ shapes !! pos = Some (shapeOf a s)) /\
    (forall pos1 pos2 i,
       idxs !! pos1 = Some i -> idxs !! pos2 = Some i -> pos1 = pos2).
Proof.
  intros Hag.
  destruct (KD_CBS.validAtK pl 0 k) as [ss idxs] eqn:Ev.
  destruct (validAtK_spec pl _ _ _ _ Ev) as (Hlen & Hle & Hsound & Hcompl & Hinj).
  destruct (buildShapes_spec agents idxs ss Hlen) as (shapes & Eb & Hl & Hs).
  { intros i Hi. apply list_elem_of_lookup in Hi as [pos Hpos].
    destruct (Hsound _ _ Hpos) as [Hr _]. lia. }
  exists ss, idxs, shapes. repeat split; try assumption.
  - intros pos A HA.
    destruct (lookup_lt_is_Some_2 idxs pos) as [i Hi];
      [rewrite <- Hl; eapply lookup_lt_Some; eassumption|].
    destruct (Hsound _ _ Hi) as (_ & s & Hss & Hst).
    destruct (Hs _ _ _ Hi Hss) as (a & Ha & Hsh).
    rewrite Nat.sub_0_r in Hst.
    exists i, a, s. repeat split; try assumption. congruence.
  - intros i a s Ha Hst.
    destruct (Hcompl _ _ Hst) as [pos Hpos]. simpl in Hpos.
    destruct (Hsound _ _ Hpos) as (_ & s' & Hss & Hst').
    rewrite Nat.sub_0_r in Hst'.
    destruct (Hs _ _ _ Hpos Hss) as (a' & Ha' & Hsh).
    exists pos. split; [exact Hpos|]. congruence.
Qed.

Lemma collides_true agents pl k i j :
  collides agents pl k i j = true <->
  exists a b s t, agents !! i = Some a /\ agents !! j = Some b /\
    Spec.stateAt pl i k = Some s /\ Spec.stateAt pl j k = Some t /\
    disjoint (shapeOf a s) (shapeOf b t) = false.
Proof.
  unfold Spec.collides. split.
  - destruct (agents !! i) as [a|]; [|discriminate].
    destruct (agents !! j) as [b|]; [|discriminate].
    destruct (Spec.stateAt pl i k) as [s|]; [|discriminate].
    destruct (Spec.stateAt pl j k) as [t|]; [|discriminate].
    intros Hd. exists a, b, s, t. repeat split. now apply negb_true_iff.
  - intros (a & b & s & t & -> & -> & -> & -> & Hd). now apply negb_true_iff.
Qed.

(** No collision at step [k]: the body of the loop falls through. *)
Lemma scanStep_quiet agents (delta : D) pl k :
  (length pl <= length agents)%nat ->
  (forall i j, i ≠ j -> collides agents pl k i j = false) ->
  KD_CBS.scanStep stateX stateY stateTheta disjoint agents delta pl k = Ok None.
Proof.
  intros Hag Hq. unfold KD_CBS.scanStep.
  destruct (shapes_at_step agents pl k Hag)
    as (ss & idxs & shapes & -> & -> & _ & Hpos & _ & Hinj). simpl.
  destruct (KD_CBS.firstCollision disjoint shapes) as [[qa qb]|] eqn:Ef;
    [|reflexivity].
  exfalso.
  apply firstCollision_Some in Ef as (Hne & A & B & HA & HB & Hd).
  destruct (Hpos _ _ HA) as (i & a & s & Hi & Ha & Hs & ->).
  destruct (Hpos _ _ HB) as (j & b & t & Hj & Hb & Ht & ->).
  assert (i ≠ j) as Hij by (intros ->; apply Hne; eapply Hinj; eassumption).
  specialize (Hq i j Hij).
  assert (collides agents pl k i j = true) as Hc
    by (apply collides_true; eauto 10).
  congruence.
Qed.

(** A collision at step [k]: the body returns the record of step [k]
    followed by the records of the [while] loop. *)
Lemma scanStep_eval agents (delta : D) pl k i j :
  (length pl <= length agents)%nat ->
  i ≠ j -> collides agents pl k i j = true ->
  exists qa qb i1 i2 a1 a2 s1 s2 pa pb,
    qa ≠ qb /\
    (KD_CBS.validAtK pl 0 k).2 !! qa = Some i1 /\
    (KD_CBS.validAtK pl 0 k).2 !! qb = Some i2 /\
    agents !! i1 = Some a1 /\ agents !! i2 = Some a2 /\
    Spec.stateAt pl i1 k = Some s1 /\ Spec.stateAt pl i2 k = Some s2 /\
    disjoint (shapeOf a1 s1) (shapeOf a2 s2) = false /\
    pl !! qa = Some pa /\ pl !! qb = Some pb /\
    KD_CBS.scanStep stateX stateY stateTheta disjoint agents delta pl k
    = Ok (Some (mkConflict qa qb (shapeOf a1 s1) (shapeOf a2 s2)
                  (dmul (d_of_int (Z.of_nat k)) delta)
                :: overlap a1 a2 qa qb delta (S k)
                     (drop (S k) (getStates pa)) (drop (S k) (getStates pb)))).
Proof.
  intros Hag Hij Hc. unfold KD_CBS.scanStep.
  destruct (shapes_at_step agents pl k Hag)
    as (ss & idxs & shapes & -> & -> & [Hl Hle] & Hpos & Hslot & Hinj). simpl.
  apply collides_true in Hc as (a & b & s & t & Ha & Hb & Hs & Ht & Hd).
  destruct (Hslot _ _ _ Ha Hs) as (pi & Hpi & Hshi).
  destruct (Hslot _ _ _ Hb Ht) as (pj & Hpj & Hshj).
  assert (pi ≠ pj) as Hpij by (intros ->; congruence).
  destruct (KD_CBS.firstCollision disjoint shapes) as [[qa qb]|] eqn:Ef.
  2:{ pose proof (firstCollision_None shapes pi pj _ _ Ef Hpij Hshi Hshj).
      congruence. }
  apply firstCollision_Some in Ef as (Hne & A & B & HA & HB & HdAB).
  destruct (Hpos _ _ HA) as (i1 & a1 & s1 & Hi1 & Ha1 & Hs1 & ->).
  destruct (Hpos _ _ HB) as (i2 & a2 & s2 & Hi2 & Ha2 & Hs2 & ->).
  destruct (lookup_lt_is_Some_2 pl qa) as [pa Hpa];
    [apply lookup_lt_Some in HA; lia|].
  destruct (lookup_lt_is_Some_2 pl qb) as [pb Hpb];
    [apply lookup_lt_Some in HB; lia|].
  exists qa, qb, i1, i2, a1, a2, s1, s2, pa, pb.
  repeat (split; [assumption|]).
  rewrite (at_lookup _ _ _ HA), (at_lookup _ _ _ HB); simpl.
  rewrite (at_lookup _ _ _ Hpa), (at_lookup _ _ _ Hpb); simpl.
  rewrite (at_lookup _ _ _ Hi1), (at_lookup _ _ _ Hi2); simpl.
  rewrite (conflictWindow_spec agents delta qa qb i1 i2 a1 a2 Ha1 Ha2).
  reflexivity.
Qed.

Lemma scanStep_hit agents (delta : D) pl k i j :
  (length pl <= length agents)%nat ->
  i ≠ j -> collides agents pl k i j = true ->
  exists r rs,
    KD_CBS.scanStep stateX stateY stateTheta disjoint agents delta pl k
    = Ok (Some (r :: rs)) /\
    map time (r :: rs) = Spec.stamps delta k (S (length rs)).
Proof.
  intros Hag Hij Hc.
  destruct (scanStep_eval agents delta pl k i j Hag Hij Hc)
    as (qa & qb & i1 & i2 & a1 & a2 & s1 & s2 & pa & pb & _ & _ & _ & _ & _
        & _ & _ & _ & _ & _ & E).
  eexists _, _. split; [exact E|].
  simpl. rewrite overlap_stamps. reflexivity.
Qed.

(** With every trajectory still running at step [k], the records are
    those of the overlap window of two colliding slots. *)
Lemma scanStep_present agents (delta : D) pl k i j :
  (length pl <= length agents)%nat ->
  Forall (fun p => k < getStateCount p)%nat pl ->
  i ≠ j -> collides agents pl k i j = true ->
  exists ai aj,
    ai ≠ aj /\ collides agents pl k ai aj = true /\
    KD_CBS.scanStep stateX stateY stateTheta disjoint agents delta pl k
    = Ok (Some (Spec.window stateX stateY stateTheta disjoint agents delta pl ai aj k)).
Proof.
  intros Hag Hall Hij Hc.
  destruct (scanStep_eval agents delta pl k i j Hag Hij Hc)
    as (qa & qb & i1 & i2 & a1 & a2 & s1 & s2 & pa & pb & Hne & Hi1 & Hi2
        & Ha1 & Ha2 & Hs1 & Hs2 & Hd & Hpa & Hpb & E).
  rewrite (validAtK_all pl 0 k Hall) in Hi1, Hi2.
  apply lookup_seq in Hi1 as [-> _], Hi2 as [-> _]. simpl in *.
  exists qa, qb. split; [exact Hne|]. split.
  - apply collides_true; eauto 10.
  - rewrite E. do 2 f_equal. unfold Spec.window.
    rewrite Ha1, Ha2, Hpa, Hpb.
    unfold Spec.stateAt in Hs1, Hs2. rewrite Hpa in Hs1. rewrite Hpb in Hs2.
    simpl in Hs1, Hs2.
    rewrite (drop_S _ _ _ Hs1), (drop_S _ _ _ Hs2). simpl.
    rewrite Hd. reflexivity.
Qed.

Lemma collision_dec agents pl k :
  (length pl <= length agents)%nat ->
  (forall i j, i ≠ j -> collides agents pl k i j = false) \/
  (exists i j, i ≠ j /\ collides agents pl k i j = true).
Proof.
  intros Hag.
  destruct (shapes_at_step agents pl k Hag)
    as (ss & idxs & shapes & _ & _ & _ & Hpos & Hslot & Hinj).
  destruct (KD_CBS.firstCollision disjoint shapes) as [[qa qb]|] eqn:Ef.
  - right.
    apply firstCollision_Some in Ef as (Hne & A & B & HA & HB & Hd).
    destruct (Hpos _ _ HA) as (i & a & s & Hi & Ha & Hs & ->).
    destruct (Hpos _ _ HB) as (j & b & t & Hj & Hb & Ht & ->).
    exists i, j. split.
    + intros ->. apply Hne. eapply Hinj; eassumption.
    + apply collides_true; eauto 10.
  - left. intros i j Hij.
    destruct (collides agents pl k i j) eqn:Ec; [|reflexivity].
    apply collides_true in Ec as (a & b & s & t & Ha & Hb & Hs & Ht & Hd).
    destruct (Hslot _ _ _ Ha Hs) as (pi & Hpi & Hshi).
    destruct (Hslot _ _ _ Hb Ht) as (pj & Hpj & Hshj).
    assert (pi ≠ pj) as Hpij by (intros ->; congruence).
    pose proof (firstCollision_None shapes pi pj _ _ Ef Hpij Hshi Hshj).
    congruence.
Qed.

(** The loop over [k] either runs through without a collision and
    returns nothing, or returns what its body returns at the first step
    with a collision. *)
Lemma scan_cases agents (delta : D) pl :
  (length pl <= length agents)%nat ->
  forall n k, exists res,
    KD_CBS.scan stateX stateY stateTheta disjoint agents delta pl n k = Ok res /\
    ((res = [] /\
      forall k' i j, (k <= k' < k + n)%nat -> i ≠ j ->
        collides agents pl k' i j = false) \/
     (exists k0, (k <= k0 < k + n)%nat /\
        (exists i j, i ≠ j /\ collides agents pl k0 i j = true) /\
        (forall k' i j, (k <= k' < k0)%nat -> i ≠ j ->
           collides agents pl k' i j = false) /\
        KD_CBS.scanStep stateX stateY stateTheta disjoint agents delta pl k0
        = Ok (Some res))).
Proof.
  intros Hag. induction n as [|n IH]; intros k.
  - exists []. split; [reflexivity|]. left. split; [reflexivity|].
    intros k' i j Hk. lia.
  - simpl. destruct (collision_dec agents pl k Hag) as [Hq|(i & j & Hij & Hc)].
    + rewrite (scanStep_quiet agents delta pl k Hag Hq). simpl.
      destruct (IH (S k)) as (res & E & [[-> Hall]|(k0 & Hk0 & Hex & Hbefore & Es)]).
      * exists []. split; [exact E|]. left. split; [reflexivity|].
        intros k' i j Hk' Hij.
        destruct (decide (k' = k)) as [->|Hne]; [now apply Hq|].
        apply Hall; [lia | exact Hij].
      * exists res. split; [exact E|]. right. exists k0.
        split; [lia|]. split; [exact Hex|]. split; [|exact Es].
        intros k' i j Hk' Hij.
        destruct (decide (k' = k)) as [->|Hne]; [now apply Hq|].
        apply Hbefore; [lia | exact Hij].
    + destruct (scanStep_hit agents delta pl k i j Hag Hij Hc)
        as (r & rs & E & _).
      rewrite E. simpl. exists (r :: rs). split; [reflexivity|]. right.
      exists k. split; [lia|]. split; [eauto|]. split; [|exact E].
      intros k' i' j' Hk'. lia.
Qed.

Lemma maxStates_ge pl (p : PathControl D State Control) :
  p ∈ pl -> (getStateCount p <= KD_CBS.maxStates pl)%nat.
Proof.
  unfold KD_CBS.maxStates.
  assert (forall m,
    (m <= foldl (fun m p => if decide (m < getStateCount p)%nat
                            then getStateCount p else m) m pl)%nat /\
    (p ∈ pl -> getStateCount p
       <= foldl (fun m p => if decide (m < getStateCount p)%nat
                            then getStateCount p else m) m pl)%nat) as Hm.
  { induction pl as [|q pl IH]; intros m; simpl.
    - split; [lia|]. intros Hp. now apply elem_of_nil in Hp.
    - destruct (IH (if decide (m < getStateCount q)%nat
                    then getStateCount q else m)) as [Hge Hin].
      destruct (decide (m < getStateCount q)%nat).
      + split; [lia|]. intros Hp. apply elem_of_cons in Hp as [->|Hp]; auto.
      + split; [lia|]. intros Hp. apply elem_of_cons in Hp as [->|Hp]; auto.
        lia. }
  intros Hp. now apply Hm.
Qed.

(** Past the longest trajectory nothing collides. *)
Lemma collides_beyond agents pl k i j :
  (KD_CBS.maxStates pl <= k)%nat -> collides agents pl k i j = false.
Proof.
  intros Hk. destruct (collides agents pl k i j) eqn:Ec; [|reflexivity].
  apply collides_true in Ec as (a & b & s & t & _ & _ & Hs & _).
  unfold Spec.stateAt in Hs.
  destruct (pl !! i) as [p|] eqn:Ep; [|discriminate]. simpl in Hs.
  apply lookup_lt_Some in Hs.
  pose proof (maxStates_ge pl p (list_elem_of_lookup_2 _ _ _ Ep)) as Hm.
  unfold getStateCount in Hm. lia.
Qed.

Lemma interpolateAll_refines pl :
  Forall Spec.wellFormed pl ->
  KD_CBS.interpolateAll pl = Ok (map Spec.interpolated pl).
Proof.
  induction 1 as [|p pl (Hs & Hd & Hpos) _ IH]; [reflexivity|].
  simpl. rewrite (interpolate_refines p Hs Hd Hpos). simpl.
  rewrite IH. reflexivity.
Qed.

(** [validatePlan] on a well-formed plan: it returns, and its answer is
    either empty, nothing colliding at any step, or the answer of the
    loop body at the earliest colliding step. *)
Lemma validatePlan_spec agents pl (p0 : PathControl D State Control) :
  pl !! 0%nat = Some p0 ->
  (length pl <= length agents)%nat ->
  Forall Spec.wellFormed pl ->
  let ipl := map Spec.interpolated pl in
  let delta := getPropagationStepSize (getSpaceInformation p0) in
  exists res,
    KD_CBS.validatePlan stateX stateY stateTheta disjoint agents pl = Ok res /\
    ((res = [] /\ forall k i j, i ≠ j -> collides agents ipl k i j = false) \/
     (exists k,
        Spec.earliest stateX stateY stateTheta disjoint agents ipl k /\
        KD_CBS.scanStep stateX stateY stateTheta disjoint agents delta ipl k
        = Ok (Some res))).
Proof.
  intros E0 Hag Hwf ipl delta.
  assert (length ipl <= length agents)%nat as Hag'
    by (unfold ipl; rewrite length_map; exact Hag).
  destruct (scan_cases agents delta ipl Hag' (KD_CBS.maxStates ipl) 0)
    as (res & E & Hcases).
  exists res. split.
  - unfold KD_CBS.validatePlan. rewrite (at_lookup _ _ _ E0); simpl.
    rewrite (interpolateAll_refines pl Hwf); simpl. exact E.
  - destruct Hcases as [[-> Hall]|(k & Hk & Hex & Hbefore & Es)].
    + left. split; [reflexivity|]. intros k i j Hij.
      destruct (decide (k < KD_CBS.maxStates ipl)%nat) as [Hlt|Hge].
      * apply Hall; [lia | exact Hij].
      * apply collides_beyond. lia.
    + right. exists k. split; [|exact Es]. split; [exact Hex|].
      intros k' i j Hk'. apply Hbefore. lia.
Qed.

(** The overlap records stop at the first step at which a state is
    missing or the footprints are disjoint, and not before. *)
Lemma overlap_maximal (a b : Agent D) (i j : nat) (delta : D) :
  forall s1 s2 k,
    (forall m, (m < length (overlap a b i j delta k s1 s2))%nat ->
       exists x y, s1 !! m = Some x /\ s2 !! m = Some y /\
                   disjoint (shapeOf a x) (shapeOf b y) = false) /\
    (forall x y,
       s1 !! length (overlap a b i j delta k s1 s2) = Some x ->
       s2 !! length (overlap a b i j delta k s1 s2) = Some y ->
       disjoint (shapeOf a x) (shapeOf b y) = true).
Proof.
  induction s1 as [|x1 s1 IH]; intros s2 k.
  - simpl. split; [intros m Hm; lia | intros x y Hx; discriminate].
  - destruct s2 as [|y1 s2]; simpl.
    + split; [intros m Hm; lia | intros x y _ Hy; discriminate].
    + destruct (disjoint (shapeOf a x1) (shapeOf b y1)) eqn:Ed; simpl.
      * split; [intros m Hm; lia|]. intros x y [= <-] [= <-]. exact Ed.
      * destruct (IH s2 (S k)) as [Hin Hout]. split.
        -- intros [|m] Hm; [eauto|]. apply Hin. lia.
        -- exact Hout.
Qed.

Lemma window_maximal agents (delta : D) pl i j k :
  (forall m, (m < length (Spec.window stateX stateY stateTheta disjoint
                            agents delta pl i j k))%nat ->
     collides agents pl (k + m) i j = true) /\
  collides agents pl
    (k + length (Spec.window stateX stateY stateTheta disjoint
                   agents delta pl i j k)) i j = false.
Proof.
  unfold Spec.window.
  destruct (agents !! i) as [a|] eqn:Ea.
  2:{ split; [simpl; intros m Hm; lia|]. unfold Spec.collides. now rewrite Ea. }
  destruct (agents !! j) as [b|] eqn:Eb.
  2:{ split; [simpl; intros m Hm; lia|]. unfold Spec.collides. now rewrite Ea, Eb. }
  destruct (pl !! i) as [p|] eqn:Ep.
  2:{ split; [simpl; intros m Hm; lia|].
      unfold Spec.collides, Spec.stateAt. now rewrite Ea, Eb, Ep. }
  destruct (pl !! j) as [q|] eqn:Eq.
  2:{ split; [simpl; intros m Hm; lia|].
      unfold Spec.collides, Spec.stateAt. rewrite Ea, Eb, Ep, Eq. simpl.
      now destruct (getStates p !! _). }
  destruct (overlap_maximal a b i j delta
              (drop k (getStates p)) (drop k (getStates q)) k) as [Hin Hout].
  split.
  - intros m Hm. destruct (Hin m Hm) as (x & y & Hx & Hy & Hd).
    rewrite lookup_drop in Hx, Hy.
    apply collides_true. exists a, b, x, y. unfold Spec.stateAt.
    rewrite Ep, Eq. simpl. repeat split; assumption.
  - set (n := length _) in *.
    unfold Spec.collides, Spec.stateAt. rewrite Ea, Eb, Ep, Eq. simpl.
    destruct (getStates p !! (k + n)%nat) as [x|] eqn:Ex; [|reflexivity].
    destruct (getStates q !! (k + n)%nat) as [y|] eqn:Ey; [|reflexivity].
    rewrite (Hout x y); [reflexivity | |]; now rewrite lookup_drop.
Qed.
(** The record at position [m] of an overlap run is the record of step
    [k + m]: the pair, the two footprints at that step, that step's
    time stamp. *)
Lemma overlap_lookup (a b : Agent D) (i j : nat) (delta : D) :
  forall s1 s2 k m r,
    overlap a b i j delta k s1 s2 !! m = Some r ->
    exists x y, s1 !! m = Some x /\ s2 !! m = Some y /\
      r = mkConflict i j (shapeOf a x) (shapeOf b y)
            (dmul (d_of_int (Z.of_nat (k + m))) delta).
Proof.
  induction s1 as [|x1 s1 IH]; intros s2 k m r E; [destruct m; discriminate|].
  destruct s2 as [|y1 s2]; [destruct m; discriminate|]. simpl in E.
  destruct (disjoint (shapeOf a x1) (shapeOf b y1)); simpl in E;
    [destruct m; discriminate|].
  destruct m as [|m]; simpl in E.
  - injection E as <-. exists x1, y1. rewrite Nat.add_0_r. repeat split.
  - apply IH in E as (x & y & Hx & Hy & ->). exists x, y.
    replace (k + S m)%nat with (S k + m)%nat by lia. repeat split; assumption.
Qed.

Lemma window_lookup agents (delta : D) pl i j k m (r : Conflict D) :
  Spec.window stateX stateY stateTheta disjoint agents delta pl i j k !! m
  = Some r ->
  exists a b s t,
    agents !! i = Some a /\ agents !! j = Some b /\
    Spec.stateAt pl i (k + m) = Some s /\ Spec.stateAt pl j (k + m) = Some t /\
    r = mkConflict i j (shapeOf a s) (shapeOf b t)
          (dmul (d_of_int (Z.of_nat (k + m))) delta).
Proof.
  unfold Spec.window.
  destruct (agents !! i) as [a|]; [|destruct m; discriminate].
  destruct (agents !! j) as [b|]; [|destruct m; discriminate].
  destruct (pl !! i) as [p|] eqn:Ep; [|destruct m; discriminate].
  destruct (pl !! j) as [q|] eqn:Eq; [|destruct m; discriminate].
  intros E. apply overlap_lookup in E as (x & y & Hx & Hy & ->).
  rewrite lookup_drop in Hx, Hy.
  exists a, b, x, y. unfold Spec.stateAt. rewrite Ep, Eq. simpl.
  repeat split; assumption.
Qed.
End Detector.

(** C2, amended: on a well-formed joint plan [validatePlan] returns.
    It inserts either no record, no two slots colliding at any step, or
    one record per step of a run of consecutive steps that starts at
    the earliest colliding step [k], each record stamped with the
    single time [step * Delta].  When no trajectory has ended at step
    [k], there are two slots [i] and [j] such that the record of every
    step of the run carries the pair [(i, j)] and the footprints of
    slots [i] and [j] at that step, and the run is their maximal
    contiguous overlap window from [k]: they collide at every step of
    the run and not at the step after it.  (What the records carry and
    where the run ends when a trajectory has ended at step [k] is not
    part of the statement.) *)
Theorem validatePlan_records_per_step
    {D : Type} `{DoubleOps D} {State Control : Type}
    (stateX stateY stateTheta : State -> D)
    (disjoint : @polygon D -> @polygon D -> bool)
    (agents : list (Agent D)) (pl : list (PathControl D State Control))
    (p0 : PathControl D State Control) :
  pl !! 0%nat = Some p0 ->
  (length pl <= length agents)%nat ->
  Forall Spec.wellFormed pl ->
  let ipl := map Spec.interpolated pl in
  let delta := getPropagationStepSize (getSpaceInformation p0) in
  let collides := Spec.collides stateX stateY stateTheta disjoint agents ipl in
  let shape := KD_CBS.agentShape stateX stateY stateTheta in
  exists res,
    KD_CBS.validatePlan stateX stateY stateTheta disjoint agents pl = Ok res /\
    ((res = [] /\ forall k i j, i ≠ j -> collides k i j = false) \/
     (exists k,
        Spec.earliest stateX stateY stateTheta disjoint agents ipl k /\
        res ≠ [] /\
        map time res = Spec.stamps delta k (length res) /\
        (Forall (fun p => k < getStateCount p)%nat ipl ->
         exists i j,
           i ≠ j /\
           res = Spec.window stateX stateY stateTheta disjoint agents delta ipl i j k /\
           (forall m r, res !! m = Some r ->
              exists a b s t,
                agents !! i = Some a /\ agents !! j = Some b /\
                Spec.stateAt ipl i (k + m) = Some s /\
                Spec.stateAt ipl j (k + m) = Some t /\
                r = mkConflict i j (shape a s) (shape b t)
                      (dmul (d_of_int (Z.of_nat (k + m))) delta)) /\
           (forall m, (m < length res)%nat -> collides (k + m)%nat i j = true) /\
           collides (k + length res)%nat i j = false))).
Proof.
  intros E0 Hag Hwf ipl delta collides shape.
  destruct (validatePlan_spec stateX stateY stateTheta disjoint agents pl p0
              E0 Hag Hwf) as (res & E & Hcases).
  assert (length ipl <= length agents)%nat as Hag'
    by (unfold ipl; rewrite length_map; exact Hag).
  exists res. split; [exact E|].
  destruct Hcases as [Hnil|(k & Hk & Estep)]; [left; exact Hnil|].
  right. exists k. split; [exact Hk|].
  destruct Hk as [(i & j & Hij & Hc) Hbefore].
  destruct (scanStep_hit stateX stateY stateTheta disjoint agents delta ipl k i j
              Hag' Hij Hc) as (r & rs & Ehit & Hst).
  fold ipl delta in Estep. rewrite Ehit in Estep. injection Estep as <-.
  split; [discriminate|]. split; [exact Hst|].
  intros Hall.
  destruct (scanStep_present stateX stateY stateTheta disjoint agents delta ipl
              k i j Hag' Hall Hij Hc) as (ai & aj & Hne & _ & Ewin).
  rewrite Ehit in Ewin. injection Ewin as Ewin.
  exists ai, aj. split; [exact Hne|]. split; [exact Ewin|]. split.
  - intros m r0 Hm. rewrite Ewin in Hm.
    now apply (window_lookup stateX stateY stateTheta disjoint) in Hm.
  - rewrite Ewin. apply window_maximal.
Qed.

Lemma validatePlan_records_per_step_witness :
  exists res,
    KD_CBS.validatePlan Example.stateX Example.stateY Example.stateTheta
      Example.disjoint Example.twoCars [Example.eastbound; Example.westbound]
    = Ok res /\
    map time res = [1%Q; 2%Q] /\
    res = Spec.window Example.stateX Example.stateY Example.stateTheta
            Example.disjoint Example.twoCars 1%Q
            (map Spec.interpolated [Example.eastbound; Example.westbound])
            0%nat 1%nat 1%nat.
Proof.
  destruct (validatePlan_records_per_step Example.stateX Example.stateY
              Example.stateTheta Example.disjoint Example.twoCars
              [Example.eastbound; Example.westbound] Example.eastbound)
    as (res & E & _).
  - reflexivity.
  - simpl; lia.
  - repeat constructor; vm_compute; discriminate.
  - exists res. split; [exact E|].
    vm_compute in E. injection E as <-. split; reflexivity.
Defined.

(** C2 as stated fails on the head-on plan: the answer has one record
    for each of the steps 1 and 2, neither none nor exactly one. *)
Lemma validatePlan_single_record_counterexample :
  ~ (exists res,
       KD_CBS.validatePlan Example.stateX Example.stateY Example.stateTheta
         Example.disjoint Example.twoCars [Example.eastbound; Example.westbound]
       = Ok res /\
       Spec.singleRecord res).
Proof.
  intros (res & E & Hone). vm_compute in E. injection E as <-.
  destruct Hone as [Hnil|[c Hc]]; discriminate.
Qed.

(** The records of the head-on plan carry the distinct time stamps 1
    and 2, one per step of the window. *)
Lemma validatePlan_head_on_stamps :
  exists res,
    KD_CBS.validatePlan Example.stateX Example.stateY Example.stateTheta
      Example.disjoint Example.twoCars [Example.eastbound; Example.westbound]
    = Ok res /\
    map time res = [1%Q; 2%Q] /\
    map (fun c => (agent1 c, agent2 c)) res = [(0, 1); (0, 1)]%nat.
Proof. eexists. split; [vm_compute; reflexivity|]. split; reflexivity. Qed.

(** ** The high-level search on a conflict *)

(** Whenever the plan of the popped node has a conflict, the loop ends
    the process: no child is created, nothing is replanned. *)
Lemma highLevel_conflict_exits
    {D : Type} `{DoubleOps D} {State Control : Type}
    (stateX stateY stateTheta : State -> D)
    (disjoint : @polygon D -> @polygon D -> bool)
    (popHead : list (@KD_CBS.conflictNode D State Control) ->
               option (KD_CBS.conflictNode * list KD_CBS.conflictNode))
    (agents : list (Agent D))
    (queue rest : list (@KD_CBS.conflictNode D State Control))
    (curr : @KD_CBS.conflictNode D State Control)
    (c : Conflict D) (cs : list (Conflict D)) :
  queue ≠ [] ->
  popHead queue = Some (curr, rest) ->
  KD_CBS.validatePlan stateX stateY stateTheta disjoint agents (KD_CBS.getPlan curr)
  = Ok (c :: cs) ->
  KD_CBS.highLevel stateX stateY stateTheta disjoint popHead agents queue false
  = Fault (ProcessExit 1).
Proof.
  intros Hq Hpop Hval. unfold KD_CBS.highLevel. simpl.
  rewrite bool_decide_eq_false_2 by exact Hq. simpl.
  rewrite Hpop, Hval. reflexivity.
Qed.

(** C1, on the head-on scenario S2: the root plan has a conflict, and
    [solve] ends the process with [exit(1)] after the two root calls of
    the low-level planner; no child node is created, no agent is
    replanned and the search loop does not continue. *)
Theorem solve_head_on_exits :
  KD_CBS.solve Example.stateX Example.stateY Example.stateTheta
    Example.disjoint Example.popHead Example.twoCars Example.headOn [] false
  = ([KD_CBS.LowLevelSolve 0; KD_CBS.LowLevelSolve 1], Fault (ProcessExit 1)).
Proof. vm_compute. reflexivity. Qed.

(** C3, on a plan whose slot 0 has ended when slots 1 and 2 first
    overlap (step 2): the record names the agents 0 and 1, their
    positions among the agents still running, although its polygons are
    the footprints of slots 1 and 2; slots 0 and 1 do not collide at
    that step; and the record of step 3, where slots 1 and 2 still
    overlap, is missing because the loop looks at the trajectory of
    slot 0. *)
Theorem validatePlan_names_positions :
  let pl := [Example.shortLived; Example.chaser; Example.comer] in
  let collides := Spec.collides Example.stateX Example.stateY
                    Example.stateTheta Example.disjoint Example.threeCars
                    (map Spec.interpolated pl) in
  let shape := KD_CBS.agentShape Example.stateX Example.stateY Example.stateTheta in
  KD_CBS.validatePlan Example.stateX Example.stateY Example.stateTheta
    Example.disjoint Example.threeCars pl
  = Ok [ mkConflict 0 1
           (shape (Example.car "a1") (Example.at_xy 2 10))
           (shape (Example.car "a2") (Example.at_xy 3 10)) 2%Q ] /\
  collides 2%nat 0%nat 1%nat = false /\
  collides 2%nat 1%nat 2%nat = true /\
  collides 3%nat 1%nat 2%nat = true.
Proof. vm_compute. repeat split; reflexivity. Qed.

(** C7, on a single agent whose solution has three states and two
    controls: the path delivered to its problem definition has the
    first two states and the second control only; the goal state and
    the first control are left out.  The call reports an exact
    solution. *)
Theorem solve_delivers_truncated_path :
  KD_CBS.solve Example.stateX Example.stateY Example.stateTheta
    Example.disjoint Example.popHead [Example.car "a0"]
    [Example.ready Example.lonely] [] false
  = ([KD_CBS.LowLevelSolve 0;
      KD_CBS.AddSolutionPath 0
        (Example.path [Example.at_xy 0 0; Example.at_xy 1 0] [2%Q] [1%Q])
        false (-1)%Q "a0"],
     Ok EXACT_SOLUTION) /\
  getStates Example.lonely
  = [Example.at_xy 0 0; Example.at_xy 1 0; Example.at_xy 3 0] /\
  getControls Example.lonely = [1%Q; 2%Q].
Proof. vm_compute. repeat split; reflexivity. Qed.

(** The inner loop of the bookkeeping appends one state per iteration,
    and it runs once less than there are states. *)
Lemma copyLoop_length
    {D : Type} `{DoubleOps D} {State Control : Type}
    (mpath : PathControl D State Control) :
  forall n j path path',
    KD_CBS.copyLoop mpath n j path = Ok path' ->
    length (getStates path') = (length (getStates path) + n)%nat.
Proof.
  induction n as [|n IH]; intros j path path' E; simpl in E.
  - injection E as <-. lia.
  - destruct (decide (0 < j)%nat).
    + apply bind_Ok in E as (s & _ & E). apply bind_Ok in E as (u & _ & E).
      apply bind_Ok in E as (d & _ & E). apply IH in E. simpl in E.
      rewrite length_app in E. simpl in E. lia.
    + apply bind_Ok in E as (s & _ & E). apply IH in E. simpl in E.
      rewrite length_app in E. simpl in E. lia.
Qed.

(** With the flag set the constraint list is never looked at: the
    iteration does the same under any two constraint lists. *)
Lemma extend_intermediate_constraint_blind
    {D : Type} `{DoubleOps D} {State Control : Type}
    (stateX stateY stateTheta : State -> D)
    (disjoint : @polygon D -> @polygon D -> bool)
    (isSatisfied : State -> bool * D) (a_ : option (Agent D))
    (siC_ : SpaceInformation D State Control)
    (constraints1 constraints2 : list (Constraint D))
    (t : @constraintRRT.Tree D State Control)
    (s : @constraintRRT.Sample State Control) :
  constraintRRT.extend stateX stateY stateTheta disjoint isSatisfied true
    a_ siC_ constraints1 t s
  = constraintRRT.extend stateX stateY stateTheta disjoint isSatisfied true
      a_ siC_ constraints2 t s.
Proof. reflexivity. Qed.

(** C4, on one iteration from the node at (4, 0) under a constraint that
    forbids the square around (5, 0): the propagated state at (5, 0)
    violates the constraint; with the flag clear it is rejected and the
    tree is unchanged, with the flag set it becomes a tree node. *)
Theorem extend_intermediate_ignores_constraints :
  let extend flag :=
    constraintRRT.extend Example.stateX Example.stateY Example.stateTheta
      Example.disjoint Example.isSatisfied flag (Some (Example.car "a0"))
      Example.si Example.forbidden Example.seeded Example.oneStep in
  let candidate :=
    constraintRRT.mkMotion (Example.at_xy 5 0) 1%Q 1 (Some Example.start) in
  constraintRRT.satisfiesConstraints Example.stateX Example.stateY
    Example.stateTheta Example.disjoint (Some (Example.car "a0"))
    Example.si Example.forbidden candidate = Ok false /\
  extend false = Ok (Example.seeded, false) /\
  (exists t, extend true = Ok (t, false) /\
             constraintRRT.nn_ t = [Example.start; candidate]).
Proof.
  vm_compute. split; [reflexivity|]. split; [reflexivity|].
  eexists. split; reflexivity.
Qed.

(** * Further properties *)

(** ** The interpolator on uniform trajectories *)

Section InterpolationMore.
Context {D : Type} `{DoubleOps D} {State Control : Type}.
#[local] Abbreviation PathControl := (PathControl D State Control).
#[local] Abbreviation buffers := (@KD_CBS.buffers D State Control).
Implicit Types (p : PathControl).

(** Segments that round to at most one step are copied one for one. *)
Lemma flatten_copied (si : SpaceInformation D State Control) :
  forall (ss : list State) (us : list Control) (ds : list D),
    Forall (fun d => KD_CBS.segment_steps (getPropagationStepSize si) d <= 1) ds ->
    length ds = length us -> (length us <= length ss)%nat ->
    Spec.flatten (map (fun '(s, u, d) => Spec.rewritten si s u d)
                      (zip (zip ss us) ds))
    = (take (length us) ss, us, ds).
Proof.
  induction ss as [|s ss IH]; intros us ds Hle Hd Hs.
  - destruct us; [|simpl in Hs; lia]. destruct ds; [reflexivity|discriminate].
  - destruct us as [|u us]; [destruct ds; [reflexivity|discriminate]|].
    destruct ds as [|d ds]; [discriminate|].
    inversion Hle as [|? ? Hd1 Hrest]; subst. simpl in Hd, Hs.
    specialize (IH us ds Hrest ltac:(lia) ltac:(lia)).
    simpl. unfold Spec.flatten in *. simpl.
    injection IH as IH1 IH2 IH3.
    unfold Spec.rewritten at 1 3 5.
    destruct (Z.leb_spec (KD_CBS.segment_steps (getPropagationStepSize si) d) 1);
      [|lia].
    simpl. now rewrite IH1, IH2, IH3.
Qed.

Lemma take_app_last (ss : list State) (n : nat) :
  length ss = S n -> take n ss ++ option_list (last ss) = ss.
Proof.
  intros Hs. destruct (lookup_lt_is_Some_2 ss n) as [x Ex]; [lia|].
  assert (last ss = Some x) as -> by (rewrite last_lookup, Hs; exact Ex).
  simpl. rewrite <- (take_S_r _ _ _ Ex). apply take_ge. lia.
Qed.

Lemma interpolated_fixed p :
  length (getStates p) = S (length (getControls p)) ->
  length (getControlDurations p) = length (getControls p) ->
  Forall (fun d => KD_CBS.segment_steps
                     (getPropagationStepSize (getSpaceInformation p)) d <= 1)
         (getControlDurations p) ->
  Spec.interpolated p = p.
Proof.
  intros Hs Hd Hle. unfold Spec.interpolated, Spec.rewrittenAll, Spec.segments.
  rewrite (flatten_copied _ _ _ _ Hle Hd) by lia. simpl.
  rewrite (take_app_last _ _ Hs). now destruct p.
Qed.

(** Every duration of the interpolated trajectory is Delta or a
    duration of the original that rounds to at most one step. *)
Lemma interpolated_durations p :
  Forall (fun d' =>
            d' = getPropagationStepSize (getSpaceInformation p) \/
            (d' ∈ getControlDurations p /\
             KD_CBS.segment_steps
               (getPropagationStepSize (getSpaceInformation p)) d' <= 1))
         (getControlDurations (Spec.interpolated p)).
Proof.
  apply Forall_forall. intros d' Hd'. simpl in Hd'.
  apply list_elem_of_In, in_concat in Hd' as (l & Hl & Hd').
  apply list_elem_of_In in Hl, Hd'.
  apply list_elem_of_fmap in Hl as (b & -> & Hb).
  unfold Spec.rewrittenAll in Hb.
  apply list_elem_of_fmap in Hb as ([[s u] d] & -> & Hseg).
  assert (d ∈ getControlDurations p) as Hin.
  { unfold Spec.segments in Hseg.
    apply list_elem_of_lookup in Hseg as [i Hi].
    apply lookup_zip_with_Some in Hi as (x & y & Hxy & _ & Hy).
    injection Hxy as _ <-. eapply list_elem_of_lookup_2; eassumption. }
  unfold Spec.rewritten in Hd'.
  destruct (Z.leb_spec (KD_CBS.segment_steps
                          (getPropagationStepSize (getSpaceInformation p)) d) 1)
    as [Hle|Hgt]; simpl in Hd'.
  - apply list_elem_of_singleton in Hd' as ->. right. split; assumption.
  - apply elem_of_replicate in Hd' as [-> _]. now left.
Qed.

(** The loop stops at the first duration that rounds below zero. *)
Lemma interpolate_loop_asserts p (res : D) :
  length (getStates p) = S (length (getControls p)) ->
  length (getControlDurations p) = length (getControls p) ->
  forall n i acc j d,
    (i + n)%nat = length (getControls p) ->
    (i <= j)%nat -> getControlDurations p !! j = Some d ->
    KD_CBS.segment_steps res d < 0 ->
    KD_CBS.interpolate_loop p res n i acc = Fault AssertFailed.
Proof.
  intros Hs Hd. induction n as [|n IH]; intros i acc j d Hn Hij Ej Hneg.
  - apply lookup_lt_Some in Ej. lia.
  - destruct (lookup_lt_is_Some_2 (getControlDurations p) i) as [di Edi]; [lia|].
    destruct (lookup_lt_is_Some_2 (getStates p) i) as [s Es]; [lia|].
    destruct (lookup_lt_is_Some_2 (getControls p) i) as [u Eu]; [lia|].
    destruct acc as [[nS nC] nD]. simpl.
    rewrite (at_lookup _ _ _ Edi); simpl.
    destruct (Z.ltb_spec (KD_CBS.segment_steps res di) 0) as [_|Hpos];
      [reflexivity|].
    assert (i ≠ j) as Hne by (intros ->; rewrite Ej in Edi; injection Edi as ->; lia).
    rewrite (at_lookup _ _ _ Es), (at_lookup _ _ _ Eu); simpl.
    destruct (KD_CBS.segment_steps res di <=? 1);
      apply (IH _ _ j d); try assumption; lia.
Qed.

(** X1: a trajectory all of whose durations round to zero or one step
    is a fixed point of [interpolate]. *)
Theorem interpolate_uniform_fixed p :
  length (getStates p) = S (length (getControls p)) ->
  length (getControlDurations p) = length (getControls p) ->
  Forall (fun d => 0 <= KD_CBS.segment_steps
                          (getPropagationStepSize (getSpaceInformation p)) d <= 1)
         (getControlDurations p) ->
  KD_CBS.interpolate p = Ok p.
Proof.
  intros Hs Hd Hsteps.
  rewrite (interpolate_refines p Hs Hd).
  - f_equal. apply interpolated_fixed; try assumption.
    eapply Forall_impl; [exact Hsteps|]. simpl; lia.
  - eapply Forall_impl; [exact Hsteps|]. simpl; lia.
Qed.

(** X2: interpolating twice is interpolating once, when the dynamics
    return one state per step and Delta itself rounds to one step. *)
Theorem interpolate_idempotent p :
  length (getStates p) = S (length (getControls p)) ->
  length (getControlDurations p) = length (getControls p) ->
  Forall (fun d => 0 <= KD_CBS.segment_steps
                          (getPropagationStepSize (getSpaceInformation p)) d)
         (getControlDurations p) ->
  (forall s u n, 1 < n ->
     length (propagate (getSpaceInformation p) s u n) = Z.to_nat n) ->
  0 <= KD_CBS.segment_steps (getPropagationStepSize (getSpaceInformation p))
         (getPropagationStepSize (getSpaceInformation p)) <= 1 ->
  exists q, KD_CBS.interpolate p = Ok q /\ KD_CBS.interpolate q = Ok q.
Proof.
  intros Hs Hd Hpos Hprop Hdelta. exists (Spec.interpolated p).
  split; [now apply interpolate_refines|].
  destruct (interpolated_balanced p Hs Hprop) as [Hs' Hd'].
  assert (Forall (fun d => 0 <= KD_CBS.segment_steps
                      (getPropagationStepSize (getSpaceInformation p)) d <= 1)
                 (getControlDurations (Spec.interpolated p))) as Hsteps.
  { eapply Forall_impl; [apply interpolated_durations|].
    intros d' [->|[Hin Hle]]; [exact Hdelta|].
    split; [|exact Hle]. rewrite Forall_forall in Hpos. now apply Hpos. }
  rewrite (interpolate_refines _ Hs' Hd').
  - f_equal. apply interpolated_fixed; try assumption.
    eapply Forall_impl; [exact Hsteps|]. simpl; lia.
  - eapply Forall_impl; [exact Hsteps|]. simpl; lia.
Qed.

(** X3: [interpolate] keeps the shape of a trajectory: its result again
    has one state more than controls and one duration per control, when
    the dynamics return one state per step. *)
Theorem interpolate_keeps_counts p :
  length (getStates p) = S (length (getControls p)) ->
  length (getControlDurations p) = length (getControls p) ->
  Forall (fun d => 0 <= KD_CBS.segment_steps
                          (getPropagationStepSize (getSpaceInformation p)) d)
         (getControlDurations p) ->
  (forall s u n, 1 < n ->
     length (propagate (getSpaceInformation p) s u n) = Z.to_nat n) ->
  exists q,
    KD_CBS.interpolate p = Ok q /\
    length (getStates q) = S (length (getControls q)) /\
    length (getControlDurations q) = length (getControls q) /\
    Forall (fun d' =>
              d' = getPropagationStepSize (getSpaceInformation p) \/
              d' ∈ getControlDurations p)
           (getControlDurations q).
Proof.
  intros Hs Hd Hpos Hprop. exists (Spec.interpolated p).
  split; [now apply interpolate_refines|].
  destruct (interpolated_balanced p Hs Hprop) as [Hs' Hd'].
  split; [exact Hs'|]. split; [exact Hd'|].
  eapply Forall_impl; [apply interpolated_durations|]. simpl. tauto.
Qed.

(** X4: a duration that rounds to a negative step count stops
    [interpolate] at its assertion; nothing is returned. *)
Theorem interpolate_negative_duration p (d : D) :
  length (getStates p) = S (length (getControls p)) ->
  length (getControlDurations p) = length (getControls p) ->
  d ∈ getControlDurations p ->
  KD_CBS.segment_steps (getPropagationStepSize (getSpaceInformation p)) d < 0 ->
  KD_CBS.interpolate p = Fault AssertFailed.
Proof.
  intros Hs Hd Hin Hneg. unfold KD_CBS.interpolate.
  destruct (decide _) as [Hle|_]; [lia|].
  apply list_elem_of_lookup in Hin as [j Ej].
  rewrite (interpolate_loop_asserts p _ Hs Hd _ 0 ([], [], []) j d);
    try assumption; [reflexivity | reflexivity | lia].
Qed.
End InterpolationMore.

(** ** The order in which pairs of agents are checked *)

Section VisitOrder.
Context (f : nat * nat -> bool).

Lemma find_app_case {A : Type} (g : A -> bool) (l1 l2 : list A) :
  find g (l1 ++ l2) = match find g l1 with
                      | Some x => Some x
                      | None => find g l2
                      end.
Proof. induction l1 as [|x l1 IH]; simpl; [reflexivity|]. now destruct (g x). Qed.

(** The inner loop over [aj], from [s] on, for a fixed [ai = a]. *)
Lemma find_row (a : nat) : forall m s,
  match find f (seq s m ≫= fun aj => [(a, aj)]) with
  | Some (x, y) =>
    x = a /\ (s <= y < s + m)%nat /\ f (a, y) = true /\
    forall b, (s <= b < y)%nat -> f (a, b) = false
  | None => forall b, (s <= b < s + m)%nat -> f (a, b) = false
  end.
Proof.
  induction m as [|m IH]; intros s.
  - simpl. intros b Hb. lia.
  - cbn [seq]. rewrite bind_cons. cbn [app find].
    destruct (f (a, s)) eqn:Ef.
    + split; [reflexivity|]. split; [lia|]. split; [exact Ef|].
      intros b Hb. lia.
    + specialize (IH (S s)).
      destruct (find f (seq (S s) m ≫= fun aj => [(a, aj)])) as [[x y]|].
      * destruct IH as (-> & Hy & Hf & Hb).
        split; [reflexivity|]. split; [lia|]. split; [exact Hf|].
        intros b Hbr. destruct (decide (b = s)) as [->|Hne]; [exact Ef|].
        apply Hb. lia.
      * intros b Hbr. destruct (decide (b = s)) as [->|Hne]; [exact Ef|].
        apply IH. lia.
Qed.

(** The outer loop over [ai], from [s] on. *)
Lemma find_rows (n : nat) : forall k s (x y : nat),
  find f (seq s k ≫= fun ai => seq 0 n ≫= fun aj => [(ai, aj)]) = Some (x, y) ->
  (s <= x < s + k)%nat /\ (y < n)%nat /\ f (x, y) = true /\
  (forall a b, (s <= a < x)%nat -> (b < n)%nat -> f (a, b) = false) /\
  (forall b, (b < y)%nat -> f (x, b) = false).
Proof.
  induction k as [|k IH]; intros s x y E; [discriminate|].
  cbn [seq] in E. rewrite bind_cons, find_app_case in E. pose proof (find_row s n 0) as Hrow.
  destruct (find f (seq 0 n ≫= fun aj => [(s, aj)])) as [[x' y']|].
  - injection E as -> ->. destruct Hrow as (-> & Hy & Hf & Hb).
    split; [lia|]. split; [lia|]. split; [exact Hf|]. split.
    + intros a b Ha. lia.
    + intros b Hby. apply Hb. lia.
  - apply IH in E as (Hx & Hy & Hf & Ha & Hb).
    split; [lia|]. split; [lia|]. split; [exact Hf|]. split; [|exact Hb].
    intros a b Har Hbn. destruct (decide (a = s)) as [->|Hne].
    + apply Hrow. lia.
    + apply Ha; lia.
Qed.
End VisitOrder.

(** ** More on the conflict detector *)

Section DetectorMore.
Context {D : Type} `{DoubleOps D} {State Control : Type}.
Context (stateX stateY stateTheta : State -> D).
Context (disjoint : @polygon D -> @polygon D -> bool).
#[local] Abbreviation Plan := (@KD_CBS.Plan D State Control).
#[local] Abbreviation collides := (Spec.collides stateX stateY stateTheta disjoint).
Implicit Types (pl : Plan) (agents : list (Agent D)).

Lemma firstCollision_first (shapes : list (@polygon D)) (ai aj : nat) :
  KD_CBS.firstCollision disjoint shapes = Some (ai, aj) ->
  (ai < length shapes)%nat /\ (aj < length shapes)%nat /\
  (forall bi bj, (bi < ai)%nat -> (bj < length shapes)%nat ->
     KD_CBS.inCollision disjoint shapes (bi, bj) = false) /\
  (forall bj, (bj < aj)%nat ->
     KD_CBS.inCollision disjoint shapes (ai, bj) = false).
Proof.
  unfold KD_CBS.firstCollision, KD_CBS.visitOrder. intros E.
  apply find_rows in E as (Hx & Hy & _ & Ha & Hb).
  split; [lia|]. split; [lia|]. split; [|exact Hb].
  intros bi bj Hbi Hbj. apply Ha; lia.
Qed.

(** X5: the pair the nested loops stop at is the first colliding pair in
    lexicographic order: every pair of distinct positions that comes
    before it is disjoint. *)
Theorem firstCollision_lexicographic (shapes : list (@polygon D))
    (ai aj bi bj : nat) (A B : @polygon D) :
  KD_CBS.firstCollision disjoint shapes = Some (ai, aj) ->
  (bi < ai \/ (bi = ai /\ bj < aj))%nat ->
  bi ≠ bj -> shapes !! bi = Some A -> shapes !! bj = Some B ->
  disjoint A B = true.
Proof.
  intros E Hlex Hne HA HB.
  destruct (firstCollision_first shapes ai aj E) as (_ & _ & Hrows & Hrow).
  assert (KD_CBS.inCollision disjoint shapes (bi, bj) = false) as Hno.
  { destruct Hlex as [Hlt|[-> Hlt]].
    - apply Hrows; [exact Hlt|]. eapply lookup_lt_Some; eassumption.
    - now apply Hrow. }
  destruct (disjoint A B) eqn:Ed; [reflexivity|].
  assert (KD_CBS.inCollision disjoint shapes (bi, bj) = true) as Hyes
    by (apply (inCollision_true disjoint); eauto 6).
  congruence.
Qed.

(** With a symmetric disjointness test the first colliding pair is
    ordered. *)
Lemma firstCollision_ordered (shapes : list (@polygon D)) (ai aj : nat) :
  (forall A B, disjoint A B = disjoint B A) ->
  KD_CBS.firstCollision disjoint shapes = Some (ai, aj) ->
  (ai < aj)%nat.
Proof.
  intros Hsym E.
  destruct (firstCollision_first shapes ai aj E) as (_ & _ & Hrows & _).
  apply (firstCollision_Some disjoint) in E as (Hne & A & B & HA & HB & Hd).
  destruct (decide (ai < aj)%nat) as [Hlt|Hge]; [exact Hlt|].
  assert (KD_CBS.inCollision disjoint shapes (aj, ai) = false) as Hno.
  { apply Hrows; [lia|]. eapply lookup_lt_Some; eassumption. }
  assert (KD_CBS.inCollision disjoint shapes (aj, ai) = true) as Hyes.
  { apply (inCollision_true disjoint). split; [congruence|].
    exists B, A. repeat split; try assumption. now rewrite Hsym. }
  congruence.
Qed.

Lemma conflictWindow_pair agents (delta : D) (ai aj idx1 idx2 : nat) :
  forall s1 s2 k c c',
    KD_CBS.conflictWindow stateX stateY stateTheta disjoint agents delta
      ai aj idx1 idx2 k s1 s2 c = Ok c' ->
    Forall (fun r => agent1 r = ai /\ agent2 r = aj) c ->
    Forall (fun r => agent1 r = ai /\ agent2 r = aj) c'.
Proof.
  induction s1 as [|x s1 IH]; intros s2 k c c' E Hc; simpl in E.
  - now injection E as <-.
  - destruct s2 as [|y s2]; [now injection E as <-|].
    apply bind_Ok in E as (a1 & _ & E). apply bind_Ok in E as (a2 & _ & E).
    destruct (negb _); [|now injection E as <-].
    apply IH in E; [exact E|].
    apply Forall_app. split; [exact Hc|]. repeat constructor.
Qed.

Lemma conflictWindow_nonempty agents (delta : D) (ai aj idx1 idx2 : nat) :
  forall s1 s2 k c c',
    KD_CBS.conflictWindow stateX stateY stateTheta disjoint agents delta
      ai aj idx1 idx2 k s1 s2 c = Ok c' ->
    c ≠ [] -> c' ≠ [].
Proof.
  induction s1 as [|x s1 IH]; intros s2 k c c' E Hc; simpl in E.
  - now injection E as <-.
  - destruct s2 as [|y s2]; [now injection E as <-|].
    apply bind_Ok in E as (a1 & _ & E). apply bind_Ok in E as (a2 & _ & E).
    destruct (negb _); [|now injection E as <-].
    apply IH in E; [exact E|]. now destruct c.
Qed.

(** What the loop body returns comes from the first colliding pair of
    positions, and every record carries that pair. *)
Lemma scanStep_inv agents (delta : D) pl k (res : list (Conflict D)) :
  KD_CBS.scanStep stateX stateY stateTheta disjoint agents delta pl k
  = Ok (Some res) ->
  exists shapes qa qb,
    KD_CBS.buildShapes stateX stateY stateTheta agents
      (KD_CBS.validAtK pl 0 k).1 (KD_CBS.validAtK pl 0 k).2 = Ok shapes /\
    KD_CBS.firstCollision disjoint shapes = Some (qa, qb) /\
    res ≠ [] /\
    Forall (fun r => agent1 r = qa /\ agent2 r = qb) res.
Proof.
  unfold KD_CBS.scanStep. intros E.
  destruct (KD_CBS.validAtK pl 0 k) as [ss idxs]. simpl.
  apply bind_Ok in E as (shapes & Eb & E).
  destruct (KD_CBS.firstCollision disjoint shapes) as [[qa qb]|] eqn:Ef;
    [|discriminate].
  exists shapes, qa, qb. split; [exact Eb|]. split; [exact Ef|].
  apply bind_Ok in E as (sa & _ & E). apply bind_Ok in E as (sb & _ & E).
  apply bind_Ok in E as (pa & _ & E). apply bind_Ok in E as (pb & _ & E).
  apply bind_Ok in E as (i1 & _ & E). apply bind_Ok in E as (i2 & _ & E).
  apply bind_Ok in E as (c & Ew & E). injection E as <-.
  split.
  - eapply conflictWindow_nonempty; [exact Ew | discriminate].
  - eapply conflictWindow_pair; [exact Ew|]. repeat constructor.
Qed.
End DetectorMore.

Section DetectorRecords.
Context {D : Type} `{DoubleOps D} {State Control : Type}.
Context (stateX stateY stateTheta : State -> D).
Context (disjoint : @polygon D -> @polygon D -> bool).
#[local] Abbreviation Plan := (@KD_CBS.Plan D State Control).
Implicit Types (pl : Plan) (agents : list (Agent D)).

(** X6: all records [validatePlan] returns for a well-formed plan name
    one and the same pair of two different agents, both below the number
    of trajectories. *)
Theorem validatePlan_one_pair agents pl (p0 : PathControl D State Control) :
  pl !! 0%nat = Some p0 ->
  (length pl <= length agents)%nat ->
  Forall Spec.wellFormed pl ->
  exists res ai aj,
    KD_CBS.validatePlan stateX stateY stateTheta disjoint agents pl = Ok res /\
    Forall (fun r => agent1 r = ai /\ agent2 r = aj) res /\
    (res ≠ [] -> ai ≠ aj /\ (ai < length pl)%nat /\ (aj < length pl)%nat).
Proof.
  intros E0 Hag Hwf.
  destruct (validatePlan_spec stateX stateY stateTheta disjoint agents pl p0
              E0 Hag Hwf) as (res & E & [[-> _]|(k & _ & Estep)]).
  - exists [], 0%nat, 0%nat. split; [exact E|]. split; [constructor|]. congruence.
  - apply scanStep_inv in Estep as (shapes & qa & qb & Eb & Ef & _ & Hall).
    exists res, qa, qb. split; [exact E|]. split; [exact Hall|]. intros _.
    assert (length (map Spec.interpolated pl) <= length agents)%nat as Hag'
      by (rewrite length_map; exact Hag).
    destruct (shapes_at_step stateX stateY stateTheta agents
                (map Spec.interpolated pl) k Hag')
      as (ss & idxs & shapes' & Ev & Eb' & [Hl Hle] & _).
    rewrite Ev in Eb. simpl in Eb. rewrite Eb' in Eb. injection Eb as ->.
    apply (firstCollision_Some disjoint) in Ef as (Hne & A & B & HA & HB & _).
    apply lookup_lt_Some in HA, HB. rewrite length_map in Hle.
    split; [exact Hne|]. lia.
Qed.

(** X7: when the disjointness test is symmetric, every record lists the
    lower position first. *)
Theorem validatePlan_ordered_pair agents pl (p0 : PathControl D State Control) :
  (forall A B, disjoint A B = disjoint B A) ->
  pl !! 0%nat = Some p0 ->
  (length pl <= length agents)%nat ->
  Forall Spec.wellFormed pl ->
  exists res,
    KD_CBS.validatePlan stateX stateY stateTheta disjoint agents pl = Ok res /\
    Forall (fun r => agent1 r < agent2 r)%nat res.
Proof.
  intros Hsym E0 Hag Hwf.
  destruct (validatePlan_spec stateX stateY stateTheta disjoint agents pl p0
              E0 Hag Hwf) as (res & E & [[-> _]|(k & _ & Estep)]).
  - exists []. split; [exact E | constructor].
  - apply scanStep_inv in Estep as (shapes & qa & qb & _ & Ef & _ & Hall).
    exists res. split; [exact E|].
    pose proof (firstCollision_ordered disjoint shapes qa qb Hsym Ef) as Hlt.
    eapply Forall_impl; [exact Hall|]. intros r [-> ->]. exact Hlt.
Qed.

(** X8: a plan with a single trajectory has no conflict. *)
Theorem validatePlan_single_agent agents (p : PathControl D State Control) :
  (1 <= length agents)%nat ->
  Spec.wellFormed p ->
  KD_CBS.validatePlan stateX stateY stateTheta disjoint agents [p] = Ok [].
Proof.
  intros Hag Hwf.
  destruct (validatePlan_spec stateX stateY stateTheta disjoint agents [p] p)
    as (res & E & [[-> _]|(k & [(i & j & Hij & Hc) _] & _)]);
    [reflexivity | exact Hag | now constructor | exact E |].
  exfalso.
  apply (collides_true stateX stateY stateTheta disjoint) in Hc
    as (a & b & s & t & _ & _ & Hs & Ht & _).
  unfold Spec.stateAt in Hs, Ht. simpl in Hs, Ht.
  destruct i as [|i]; [|discriminate]. destruct j as [|j]; [|discriminate].
  now apply Hij.
Qed.
End DetectorRecords.

(** ** More on the orchestrator *)

Section OrchestratorMore.
Context {D : Type} `{DoubleOps D} {State Control : Type}.
Context (stateX stateY stateTheta : State -> D).
Context (disjoint : @polygon D -> @polygon D -> bool).
#[local] Abbreviation SimpleSetup := (@KD_CBS.SimpleSetup D State Control).
#[local] Abbreviation conflictNode := (@KD_CBS.conflictNode D State Control).
#[local] Abbreviation event := (@KD_CBS.event D State Control).
#[local] Abbreviation PathControl := (PathControl D State Control).
Context (popHead : list conflictNode -> option (conflictNode * list conflictNode)).
#[local] Existing Instance KD_CBS.run_bind.
#[local] Existing Instance KD_CBS.run_ret.

(** The root loop calls the low-level planner once per agent, in slot
    order, and keeps the paths of those that succeed. *)
Lemma rootPlans_spec (mmpp : list SimpleSetup) : forall i root_sol,
  KD_CBS.rootPlans mmpp i root_sol
  = (map KD_CBS.LowLevelSolve (seq i (length mmpp)),
     Ok (root_sol ++ omap KD_CBS.ss_solve mmpp)).
Proof.
  induction mmpp as [|ss mmpp IH]; intros i root_sol.
  - simpl. now rewrite app_nil_r.
  - simpl. destruct (KD_CBS.ss_solve ss) as [path|]; rewrite IH; simpl.
    + now rewrite <- app_assoc.
    + reflexivity.
Qed.

Lemma length_omap_solved (mmpp : list SimpleSetup) :
  (length (omap KD_CBS.ss_solve mmpp) <= length mmpp)%nat /\
  ((exists ss, ss ∈ mmpp /\ KD_CBS.ss_solve ss = None) ->
   (length (omap KD_CBS.ss_solve mmpp) < length mmpp)%nat).
Proof.
  induction mmpp as [|ss mmpp [IHle IHlt]].
  - split; [reflexivity|]. intros (ss & Hin & _). now apply elem_of_nil in Hin.
  - change (omap KD_CBS.ss_solve (ss :: mmpp))
      with (match KD_CBS.ss_solve ss with
            | Some y => y :: omap KD_CBS.ss_solve mmpp
            | None => omap KD_CBS.ss_solve mmpp
            end).
    destruct (KD_CBS.ss_solve ss) as [path|] eqn:Es; cbn [length].
    + split; [lia|]. intros (ss' & Hin & Hnone).
      apply elem_of_cons in Hin as [->|Hin]; [congruence|].
      enough (length (omap KD_CBS.ss_solve mmpp) < length mmpp)%nat by lia.
      apply IHlt. eauto.
    + split; lia.
Qed.

Lemma omap_all_solved (mmpp : list SimpleSetup) (pl : list PathControl) :
  Forall2 (fun ss p => KD_CBS.ss_solve ss = Some p) mmpp pl ->
  omap KD_CBS.ss_solve mmpp = pl.
Proof.
  induction 1 as [|ss p mmpp pl Hs _ IH]; [reflexivity|].
  change (omap KD_CBS.ss_solve (ss :: mmpp))
    with (match KD_CBS.ss_solve ss with
          | Some y => y :: omap KD_CBS.ss_solve mmpp
          | None => omap KD_CBS.ss_solve mmpp
          end).
  now rewrite Hs, IH.
Qed.

(** The inner loop from index [j >= 1] on copies states, controls and
    durations [j], [j+1], ... *)
Lemma copyLoop_from (mpath : PathControl) : forall n j path,
  (1 <= j)%nat ->
  (j + n <= length (getStates mpath))%nat ->
  (j + n <= length (getControls mpath))%nat ->
  (j + n <= length (getControlDurations mpath))%nat ->
  KD_CBS.copyLoop mpath n j path
  = Ok {| getSpaceInformation := getSpaceInformation path;
          getStates := getStates path ++ take n (drop j (getStates mpath));
          getControls := getControls path ++ take n (drop j (getControls mpath));
          getControlDurations :=
            getControlDurations path
              ++ take n (drop j (getControlDurations mpath)) |}.
Proof.
  induction n as [|n IH]; intros j path Hj Hs Hu Hd.
  - simpl. rewrite !app_nil_r. now destruct path.
  - destruct (lookup_lt_is_Some_2 (getStates mpath) j) as [s Es]; [lia|].
    destruct (lookup_lt_is_Some_2 (getControls mpath) j) as [u Eu]; [lia|].
    destruct (lookup_lt_is_Some_2 (getControlDurations mpath) j) as [d Ed]; [lia|].
    simpl. destruct (decide (0 < j)%nat) as [_|Hn]; [|lia].
    rewrite (at_lookup _ _ _ Es), (at_lookup _ _ _ Eu), (at_lookup _ _ _ Ed).
    simpl. rewrite IH by lia. simpl.
    rewrite (drop_S _ _ _ Es), (drop_S _ _ _ Eu), (drop_S _ _ _ Ed). simpl.
    now rewrite <- !app_assoc.
Qed.

Lemma copyLoop_delivered (si : SpaceInformation D State Control)
    (mpath : PathControl) :
  length (getStates mpath) = S (length (getControls mpath)) ->
  length (getControlDurations mpath) = length (getControls mpath) ->
  KD_CBS.copyLoop mpath (KD_CBS.copyBound mpath) 0 (emptyPath si)
  = Ok (Bookkeeping.delivered si mpath).
Proof.
  intros Hs Hd. unfold KD_CBS.copyBound, getStateCount. rewrite Hs.
  unfold Bookkeeping.delivered.
  destruct mpath as [si' ss us ds]; simpl in *.
  destruct us as [|u us]; simpl in *.
  - destruct ds; [reflexivity|discriminate].
  - destruct ss as [|s0 ss]; [discriminate|]. simpl.
    rewrite copyLoop_from by (simpl in *; lia). simpl.
    destruct ds as [|d ds]; [discriminate|]. simpl in *.
    rewrite !drop_0.
    rewrite (take_ge us) by lia. rewrite (take_ge ds) by lia.
    reflexivity.
Qed.

(** X9: for a trajectory with n states, n-1 controls and n-1 durations
    the bookkeeping loop builds the path with the first n-1 states and
    the last n-2 controls and durations. *)
Theorem copyLoop_drops_ends (si : SpaceInformation D State Control)
    (mpath : PathControl) :
  length (getStates mpath) = S (length (getControls mpath)) ->
  length (getControlDurations mpath) = length (getControls mpath) ->
  exists path,
    KD_CBS.copyLoop mpath (KD_CBS.copyBound mpath) 0 (emptyPath si) = Ok path /\
    getStates path = take (length (getControls mpath)) (getStates mpath) /\
    getControls path = drop 1 (getControls mpath) /\
    getControlDurations path = drop 1 (getControlDurations mpath) /\
    length (getStates path) = length (getControls mpath).
Proof.
  intros Hs Hd. exists (Bookkeeping.delivered si mpath).
  split; [now apply copyLoop_delivered|]. repeat split.
  simpl. rewrite length_take. lia.
Qed.

(** The outer loop hands one path per slot to the problem definitions. *)
Lemma deliver_spec (agents : list (Agent D)) (plan : list PathControl) :
  forall (mmpp : list SimpleSetup) (i : nat) (b : bool),
    (i + length mmpp <= length plan)%nat ->
    (i + length mmpp <= length agents)%nat ->
    (forall k p, (i <= k)%nat -> plan !! k = Some p ->
       length (getStates p) = S (length (getControls p)) /\
       length (getControlDurations p) = length (getControls p)) ->
    exists adds,
      KD_CBS.deliver agents plan mmpp i b
      = (adds, Ok (b || negb (bool_decide (mmpp = [])))) /\
      length adds = length mmpp /\
      forall k ss, mmpp !! k = Some ss ->
        exists p a, plan !! (i + k)%nat = Some p /\
                    agents !! (i + k)%nat = Some a /\
                    adds !! k
                    = Some (KD_CBS.AddSolutionPath (i + k)
                              (Bookkeeping.delivered (KD_CBS.ss_si ss) p)
                              false (d_of_int (-1)) (getName a)).
Proof.
  induction mmpp as [|ss mmpp IH]; intros i b Hp Ha Hwf.
  - exists []. simpl. rewrite orb_false_r. repeat split.
    intros k ss Hk. destruct k; discriminate.
  - simpl in Hp, Ha.
    destruct (lookup_lt_is_Some_2 plan i) as [p Ep]; [lia|].
    destruct (lookup_lt_is_Some_2 agents i) as [a Ea]; [lia|].
    destruct (Hwf i p ltac:(lia) Ep) as [Hs Hd].
    destruct (IH (S i) true) as (adds & E & Hl & Hk); [lia | lia | |].
    { intros k q Hik. apply Hwf. lia. }
    exists (KD_CBS.AddSolutionPath i (Bookkeeping.delivered (KD_CBS.ss_si ss) p)
              false (d_of_int (-1)) (getName a) :: adds).
    split; [|split].
    + simpl. unfold KD_CBS.lift.
      rewrite (at_lookup _ _ _ Ep). simpl.
      rewrite (copyLoop_delivered _ p Hs Hd). simpl.
      rewrite (at_lookup _ _ _ Ea). simpl.
      rewrite E. simpl. now rewrite orb_true_r.
    + simpl. now rewrite Hl.
    + intros [|k] ss' Hss; simpl in Hss.
      * injection Hss as <-. exists p, a. rewrite Nat.add_0_r. repeat split; assumption.
      * destruct (Hk k ss' Hss) as (q & a' & Hq & Ha' & Hadd).
        exists q, a'. replace (i + S k)%nat with (S i + k)%nat by lia.
        repeat split; assumption.
Qed.
(** What a completed run of the copy-out loop has logged: one path per
    agent, each copied from the plan's trajectory of the same slot. *)
Lemma deliver_inv (agents : list (Agent D)) (plan : list PathControl) :
  forall (mmpp : list SimpleSetup) (i : nat) (b r : bool)
         (adds : list (@KD_CBS.event D State Control)),
    KD_CBS.deliver agents plan mmpp i b = (adds, Ok r) ->
    length adds = length mmpp /\
    forall k ss, mmpp !! k = Some ss ->
      exists p path a,
        plan !! (i + k)%nat = Some p /\
        KD_CBS.copyLoop p (KD_CBS.copyBound p) 0
          (emptyPath (KD_CBS.ss_si ss)) = Ok path /\
        agents !! (i + k)%nat = Some a /\
        adds !! k
        = Some (KD_CBS.AddSolutionPath (i + k) path false (d_of_int (-1))
                  (getName a)).
Proof.
  induction mmpp as [|ss mmpp IH]; intros i b r adds E.
  - simpl in E. injection E as <- _. split; [reflexivity|].
    intros k ss Hk. destruct k; discriminate.
  - simpl in E. unfold KD_CBS.lift, at_ in E.
    destruct (plan !! i) as [p|] eqn:Ep; [|discriminate]. simpl in E.
    destruct (KD_CBS.copyLoop p (KD_CBS.copyBound p) 0
                (emptyPath (KD_CBS.ss_si ss))) as [path|] eqn:Ec;
      [|discriminate]. simpl in E.
    destruct (agents !! i) as [a|] eqn:Ea; [|discriminate]. simpl in E.
    destruct (KD_CBS.deliver agents plan mmpp (S i) true) as [adds' r'] eqn:Ed.
    injection E as <- ->.
    destruct (IH _ _ _ _ Ed) as [Hl Hk]. split; [simpl; now rewrite Hl|].
    intros [|k] ss' Hss; simpl in Hss.
    + injection Hss as <-. exists p, path, a. rewrite Nat.add_0_r.
      repeat split; assumption.
    + destruct (Hk k ss' Hss) as (q & path' & a' & Hq & Hc & Ha' & Hadd).
      exists q, path', a'. replace (i + S k)%nat with (S i + k)%nat by lia.
      repeat split; assumption.
Qed.
End OrchestratorMore.

Section OrchestratorOutcomes.
Context {D : Type} `{DoubleOps D} {State Control : Type}.
Context (stateX stateY stateTheta : State -> D).
Context (disjoint : @polygon D -> @polygon D -> bool).
#[local] Abbreviation SimpleSetup := (@KD_CBS.SimpleSetup D State Control).
#[local] Abbreviation conflictNode := (@KD_CBS.conflictNode D State Control).
#[local] Abbreviation event := (@KD_CBS.event D State Control).
#[local] Abbreviation PathControl := (PathControl D State Control).
Context (popHead : list conflictNode -> option (conflictNode * list conflictNode)).
#[local] Existing Instance KD_CBS.run_bind.
#[local] Existing Instance KD_CBS.run_ret.
#[local] Abbreviation solve :=
  (KD_CBS.solve stateX stateY stateTheta disjoint popHead).
#[local] Abbreviation sameSteps := (fun (mmpp_ : list SimpleSetup) ss0 =>
  existsb (fun ss => dne (getPropagationStepSize (KD_CBS.ss_si ss))
                         (getPropagationStepSize (KD_CBS.ss_si ss0))) mmpp_
  = false).

(** X10: with an empty open set, if the low-level planner fails for some
    agent, [solve] returns [INVALID_START] after having called the
    low-level planner once for every agent, in slot order; no path is
    handed to any problem definition. *)
Theorem solve_root_failure (agents : list (Agent D))
    (mmpp_ : list SimpleSetup) (ss0 : SimpleSetup) (ptc : bool) :
  mmpp_ !! 0%nat = Some ss0 ->
  sameSteps mmpp_ ss0 ->
  (exists ss, ss ∈ mmpp_ /\ KD_CBS.ss_solve ss = None) ->
  solve agents mmpp_ [] ptc
  = (map KD_CBS.LowLevelSolve (seq 0 (length mmpp_)), Ok INVALID_START).
Proof.
  intros E0 Hsame Hfail. unfold KD_CBS.solve.
  rewrite (at_lookup _ _ _ E0). simpl. rewrite Hsame.
  rewrite rootPlans_spec. simpl.
  destruct (length_omap_solved mmpp_) as [_ Hlt]. specialize (Hlt Hfail).
  destruct (decide (length (omap KD_CBS.ss_solve mmpp_) = length mmpp_));
    [lia|].
  simpl. now rewrite app_nil_r.
Qed.

(** X11: when every agent has a root trajectory but the termination
    condition already holds at the loop, [solve] reports no solution
    ([TIMEOUT]) and hands no path to any problem definition. *)
Theorem solve_cancelled (agents : list (Agent D))
    (mmpp_ : list SimpleSetup) (ss0 : SimpleSetup)
    (pl : list PathControl) (queue_ : list conflictNode) :
  mmpp_ !! 0%nat = Some ss0 ->
  sameSteps mmpp_ ss0 ->
  Forall2 (fun ss p => KD_CBS.ss_solve ss = Some p) mmpp_ pl ->
  solve agents mmpp_ queue_ true
  = (map KD_CBS.LowLevelSolve (seq 0 (length mmpp_)), Ok TIMEOUT).
Proof.
  intros E0 Hsame Hall. unfold KD_CBS.solve.
  rewrite (at_lookup _ _ _ E0). simpl. rewrite Hsame.
  rewrite rootPlans_spec. simpl.
  rewrite (omap_all_solved mmpp_ pl Hall).
  destruct (decide (length pl = length mmpp_)) as [_|Hne];
    [|apply Forall2_length in Hall; lia].
  destruct (decide (length (queue_ ++ [ {| KD_CBS.getPlan := pl |} ]) = 0)%nat)
    as [Hz|_]; [rewrite length_app in Hz; simpl in Hz; lia|].
  simpl. now rewrite app_nil_r.
Qed.

(** X12: from an empty open set, with every agent planned and the root
    plan free of conflicts, [solve] reports an exact solution; it has
    called the low-level planner once per agent and then handed one path
    per agent, in slot order, to that agent's problem definition, under
    the agent's name, flagged exact with difference -1: the solution
    trajectory without its last state and its first control. *)
Theorem solve_delivers (agents : list (Agent D))
    (mmpp_ : list SimpleSetup) (ss0 : SimpleSetup) (pl : list PathControl) :
  mmpp_ !! 0%nat = Some ss0 ->
  sameSteps mmpp_ ss0 ->
  Forall2 (fun ss p => KD_CBS.ss_solve ss = Some p) mmpp_ pl ->
  popHead [ {| KD_CBS.getPlan := pl |} ] = Some ({| KD_CBS.getPlan := pl |}, []) ->
  KD_CBS.validatePlan stateX stateY stateTheta disjoint agents pl = Ok [] ->
  Forall (fun p => length (getStates p) = S (length (getControls p)) /\
                   length (getControlDurations p) = length (getControls p)) pl ->
  (length mmpp_ <= length agents)%nat ->
  exists adds,
    solve agents mmpp_ [] false
    = (map KD_CBS.LowLevelSolve (seq 0 (length mmpp_)) ++ adds,
       Ok EXACT_SOLUTION) /\
    length adds = length mmpp_ /\
    forall k ss, mmpp_ !! k = Some ss ->
      exists p a, pl !! k = Some p /\ agents !! k = Some a /\
                  adds !! k
                  = Some (KD_CBS.AddSolutionPath k
                            (Bookkeeping.delivered (KD_CBS.ss_si ss) p)
                            false (d_of_int (-1)) (getName a)).
Proof.
  intros E0 Hsame Hall Hpop Hval Hwf Hag.
  pose proof (Forall2_length _ _ _ Hall) as Hlen.
  destruct (deliver_spec agents pl mmpp_ 0 false) as (adds & Ed & Hl & Hk);
    [simpl; lia | simpl; lia | |].
  { intros k p _ Hp. rewrite Forall_forall in Hwf. apply Hwf.
    eapply list_elem_of_lookup_2; eassumption. }
  exists adds. split; [|split; [exact Hl | exact Hk]].
  unfold KD_CBS.solve.
  rewrite (at_lookup _ _ _ E0). simpl. rewrite Hsame.
  rewrite rootPlans_spec. simpl.
  rewrite (omap_all_solved mmpp_ pl Hall).
  destruct (decide (length pl = length mmpp_)) as [_|Hne]; [|lia].
  simpl. unfold KD_CBS.highLevel. simpl. rewrite Hpop. simpl.
  rewrite Hval. simpl. rewrite Ed. simpl.
  assert (mmpp_ ≠ []) as Hne by (intros ->; discriminate).
  rewrite bool_decide_eq_false_2 by exact Hne. simpl.
  now rewrite app_nil_r.
Qed.

(** X13: [solve] reports a solution only for a plan on which
    [validatePlan] found no conflict.  Whenever [solve] returns a solved
    status, the termination condition had not tripped, the status is
    exact, and the node popped from this run's open set (the initial
    open set followed by the root node, when every agent got a root
    trajectory) has a plan on which [validatePlan] returned the empty
    set; the events of the run are the low-level calls, one per agent,
    followed by one path per agent, each copied out of that node's
    plan: the trajectory of the agent's slot, handed over under the
    agent's name, flagged exact with difference -1. *)
Theorem solve_solved_conflict_free (agents : list (Agent D))
    (mmpp_ : list SimpleSetup) (queue_ : list conflictNode) (ptc : bool)
    (t : list event) (st : PlannerStatus) :
  solve agents mmpp_ queue_ ptc = (t, Ok st) ->
  solved st = true ->
  let root_sol := omap KD_CBS.ss_solve mmpp_ in
  let queue :=
    if decide (length root_sol = length mmpp_)
    then queue_ ++ [ {| KD_CBS.getPlan := root_sol |} ] else queue_ in
  ptc = false /\ st = EXACT_SOLUTION /\
  exists node rest adds,
    popHead queue = Some (node, rest) /\
    KD_CBS.validatePlan stateX stateY stateTheta disjoint agents
      (KD_CBS.getPlan node) = Ok [] /\
    t = map KD_CBS.LowLevelSolve (seq 0 (length mmpp_)) ++ adds /\
    KD_CBS.deliver agents (KD_CBS.getPlan node) mmpp_ 0 false
    = (adds, Ok true) /\
    length adds = length mmpp_ /\
    forall k ss, mmpp_ !! k = Some ss ->
      exists p path a,
        KD_CBS.getPlan node !! k = Some p /\
        KD_CBS.copyLoop p (KD_CBS.copyBound p) 0
          (emptyPath (KD_CBS.ss_si ss)) = Ok path /\
        agents !! k = Some a /\
        adds !! k
        = Some (KD_CBS.AddSolutionPath k path false (d_of_int (-1))
                  (getName a)).
Proof.
  intros E Hsolved root_sol queue.
  unfold KD_CBS.solve, KD_CBS.lift, at_ in E.
  destruct (mmpp_ !! 0%nat) as [ss0|]; [|discriminate]. simpl in E.
  destruct (existsb _ mmpp_); [injection E as _ <-; discriminate|].
  rewrite rootPlans_spec in E. simpl in E. fold root_sol in E. fold queue in E.
  destruct (decide (length queue = 0)%nat);
    [injection E as _ <-; discriminate|].
  simpl in E.
  destruct (KD_CBS.highLevel stateX stateY stateTheta disjoint popHead agents
              queue ptc) as [[node|]|] eqn:Eh; simpl in E;
    [|injection E as _ <-; discriminate|discriminate].
  destruct (KD_CBS.deliver agents (KD_CBS.getPlan node) mmpp_ 0 false)
    as [adds [sv|]] eqn:Ed; simpl in E; [|discriminate].
  injection E as <- <-. destruct sv; [|discriminate].
  unfold KD_CBS.highLevel in Eh.
  destruct ptc; [discriminate|]. simpl in Eh.
  destruct (negb (bool_decide _)); [|discriminate].
  destruct (popHead queue) as [[curr rest]|] eqn:Epop; [|discriminate].
  apply bind_Ok in Eh as (c & Ev & Eh).
  destruct c; [|discriminate]. injection Eh as <-.
  split; [reflexivity|]. split; [reflexivity|].
  exists curr, rest, adds.
  destruct (deliver_inv agents (KD_CBS.getPlan curr) mmpp_ 0 false true adds Ed)
    as [Hl Hk].
  split; [reflexivity|]. split; [exact Ev|].
  split; [now rewrite app_nil_r|]. split; [exact Ed|].
  split; [exact Hl|]. intros k ss Hss. exact (Hk k ss Hss).
Qed.
End OrchestratorOutcomes.

(** ** More on the low-level planner *)

Section LowLevelMore.
Context {D : Type} `{DoubleOps D} {State Control : Type}.
Context (stateX stateY stateTheta : State -> D).
Context (disjoint : @polygon D -> @polygon D -> bool).
Context (isSatisfied : State -> bool * D).
#[local] Abbreviation Motion := (@constraintRRT.Motion State Control).
#[local] Abbreviation Tree := (@constraintRRT.Tree D State Control).
#[local] Abbreviation Sample := (@constraintRRT.Sample State Control).
#[local] Abbreviation SpaceInformation := (SpaceInformation D State Control).
#[local] Abbreviation satisfies :=
  (constraintRRT.satisfiesConstraints stateX stateY stateTheta disjoint).
#[local] Abbreviation extend :=
  (constraintRRT.extend stateX stateY stateTheta disjoint isSatisfied).
#[local] Abbreviation rrt :=
  (constraintRRT.solve stateX stateY stateTheta disjoint isSatisfied).
#[local] Abbreviation atGoal m := ((isSatisfied (constraintRRT.state m)).1).

(** X14: a node satisfies a concatenated constraint list exactly when it
    satisfies both parts: adding constraints can only reject more. *)
Theorem satisfiesConstraints_app (a_ : option (Agent D)) (siC_ : SpaceInformation)
    (c1 c2 : list (Constraint D)) (m : Motion) :
  satisfies a_ siC_ (c1 ++ c2) m = Ok true <->
  satisfies a_ siC_ c1 m = Ok true /\ satisfies a_ siC_ c2 m = Ok true.
Proof.
  unfold constraintRRT.satisfiesConstraints. destruct a_ as [a|].
  - rewrite forallb_app. split.
    + intros [= E]. apply andb_true_iff in E as [-> ->]. now split.
    + intros [[= ->] [= ->]]. reflexivity.
  - split; [discriminate|]. intros [E _]. discriminate.
Qed.

(** X15: the step counter of the constraint check is the sum of the
    step counts along the ancestor chain, wrapped to 32 bits. *)
Theorem countSteps_wraps (m : Motion) :
  constraintRRT.countSteps m 0 = to_int32 (Spec.ancestorSteps m).
Proof.
  rewrite <- (to_int32_small (constraintRRT.countSteps m 0))
    by (apply countSteps_range; lia).
  now rewrite countSteps_wrap.
Qed.

Lemma addMotion_spec (t : Tree) (m : Motion) :
  constraintRRT.nn_ (constraintRRT.addMotion isSatisfied t m).1
  = constraintRRT.nn_ t ++ [m] /\
  (constraintRRT.addMotion isSatisfied t m).2 = atGoal m /\
  (atGoal m = true ->
   constraintRRT.solution (constraintRRT.addMotion isSatisfied t m).1 = Some m) /\
  (atGoal m = false ->
   constraintRRT.solution (constraintRRT.addMotion isSatisfied t m).1
   = constraintRRT.solution t).
Proof.
  unfold constraintRRT.addMotion. simpl.
  destruct (isSatisfied (constraintRRT.state m)) as [solv dist]. simpl.
  destruct solv; simpl.
  - repeat split; congruence.
  - destruct (dlt dist (constraintRRT.approxdif t)); simpl;
      repeat split; congruence.
Qed.

(** How a tree [t] without a solution has grown into [t'] by the nodes
    [added]: none of them is at the goal while there is no solution,
    and a solution is the last node added, the only one at the goal. *)
#[local] Abbreviation grown := (fun (t t' : Tree) (added : list Motion) =>
  constraintRRT.nn_ t' = constraintRRT.nn_ t ++ added /\
  (constraintRRT.solution t = None ->
   (constraintRRT.solution t' = None ->
    Forall (fun m => atGoal m = false) added) /\
   (forall m, constraintRRT.solution t' = Some m ->
      exists before, added = before ++ [m] /\
                     Forall (fun m => atGoal m = false) before /\
                     atGoal m = true))).

Lemma addIntermediate_grows (ctrl : Control) :
  forall (pstates : list State) (t : Tree) (lastmotion : Motion) t' b,
    constraintRRT.addIntermediate isSatisfied t ctrl lastmotion pstates = (t', b) ->
    exists added,
      grown t t' added /\
      (constraintRRT.solution t = None ->
       (b = true -> exists m, constraintRRT.solution t' = Some m) /\
       (b = false -> constraintRRT.solution t' = None)) /\
      Forall (fun m => constraintRRT.steps m = 1) added.
Proof.
  induction pstates as [|ps pstates IH]; intros t lastmotion t' b E; simpl in E.
  - injection E as <- <-. exists []. rewrite app_nil_r.
    split; [split; [reflexivity|]|split; [|constructor]].
    + intros Hn. split; [constructor|]. intros m Hm. congruence.
    + intros Hn. split; [discriminate | auto].
  - assert (constraintRRT.steps
              (constraintRRT.mkMotion ps ctrl 1 (Some lastmotion)) = 1)
      as Hone by reflexivity.
    remember (constraintRRT.mkMotion ps ctrl 1 (Some lastmotion)) as motion
      eqn:Em. clear Em.
    destruct (addMotion_spec t motion) as (Hnn & Hb & Hyes & Hno).
    destruct (constraintRRT.addMotion isSatisfied t motion) as [t1 solved].
    cbn [fst snd] in Hnn, Hb, Hyes, Hno. subst solved.
    destruct (isSatisfied (constraintRRT.state motion)).1 eqn:Eg.
    + injection E as <- <-. exists [motion].
      split; [split; [exact Hnn|]|split; [|repeat constructor; exact Hone]].
      * intros Hn. rewrite (Hyes eq_refl). split; [discriminate|].
        intros m [= <-]. exists []. repeat split; [constructor | exact Eg].
      * intros Hn. split; [eauto | discriminate].
    + apply IH in E as (added & [Hnn' Hg] & Hlink & Hsteps).
      exists (motion :: added).
      split; [split|split; [|constructor; [exact Hone | exact Hsteps]]].
      * rewrite Hnn', Hnn, <- app_assoc. reflexivity.
      * intros Hn. rewrite (Hno eq_refl), Hn in Hg.
        destruct (Hg eq_refl) as [HB HC]. split.
        -- intros Hn'. constructor; [exact Eg | now apply HB].
        -- intros m Hm. destruct (HC m Hm) as (before & -> & Hbef & Hm').
           exists (motion :: before). repeat split; [|exact Hm'].
           constructor; assumption.
      * intros Hn. apply Hlink. now rewrite (Hno eq_refl).
Qed.

(** One iteration of the main loop. *)
Lemma extend_grows (flag : bool) (a_ : option (Agent D)) (siC_ : SpaceInformation)
    (constraints_ : list (Constraint D)) (t t' : Tree) (s : Sample) (b : bool) :
  extend flag a_ siC_ constraints_ t s = Ok (t', b) ->
  exists added,
    grown t t' added /\
    (constraintRRT.solution t = None ->
     (b = true -> exists m, constraintRRT.solution t' = Some m) /\
     (b = false -> constraintRRT.solution t' = None)) /\
    (flag = true -> Forall (fun m => constraintRRT.steps m = 1) added) /\
    (flag = false ->
     Forall (fun m =>
               getMinControlDuration siC_ <= constraintRRT.steps m /\
               constraintRRT.parent m = Some (constraintRRT.nmotion s) /\
               (constraints_ ≠ [] -> satisfies a_ siC_ constraints_ m = Ok true))
            added).
Proof.
  assert (forall t0 : Tree, exists added,
    grown t0 t0 added /\
    (constraintRRT.solution t0 = None ->
     (false = true -> exists m, constraintRRT.solution t0 = Some m) /\
     (false = false -> constraintRRT.solution t0 = None)) /\
    (flag = true -> Forall (fun m => constraintRRT.steps m = 1) added) /\
    (flag = false ->
     Forall (fun m =>
               getMinControlDuration siC_ <= constraintRRT.steps m /\
               constraintRRT.parent m = Some (constraintRRT.nmotion s) /\
               (constraints_ ≠ [] -> satisfies a_ siC_ constraints_ m = Ok true))
            added)) as Hsame.
  { intros t0. exists []. rewrite app_nil_r.
    split; [split; [reflexivity|]|split; [|split; constructor]].
    - intros Hn. split; [constructor|]. intros m Hm. congruence.
    - intros Hn. split; [discriminate | auto]. }
  assert (forall motion : Motion,
    getMinControlDuration siC_ <= constraintRRT.steps motion ->
    constraintRRT.parent motion = Some (constraintRRT.nmotion s) ->
    (constraints_ ≠ [] -> satisfies a_ siC_ constraints_ motion = Ok true) ->
    flag = false ->
    constraintRRT.addMotion isSatisfied t motion = (t', b) ->
    exists added,
      grown t t' added /\
      (constraintRRT.solution t = None ->
       (b = true -> exists m, constraintRRT.solution t' = Some m) /\
       (b = false -> constraintRRT.solution t' = None)) /\
      (flag = true -> Forall (fun m => constraintRRT.steps m = 1) added) /\
      (flag = false ->
       Forall (fun m =>
                 getMinControlDuration siC_ <= constraintRRT.steps m /\
                 constraintRRT.parent m = Some (constraintRRT.nmotion s) /\
                 (constraints_ ≠ [] -> satisfies a_ siC_ constraints_ m = Ok true))
              added)) as Hone.
  { intros motion Hmin Hpar Hsat Hflag Eadd.
    destruct (addMotion_spec t motion) as (Hnn & Hb & Hyes & Hno).
    rewrite Eadd in Hnn, Hb, Hyes, Hno. simpl in Hnn, Hb, Hyes, Hno.
    exists [motion]. split; [split; [exact Hnn|]|split; [|split]].
    - intros Hn. destruct (atGoal motion) eqn:Eg.
      + rewrite (Hyes eq_refl). split; [discriminate|].
        intros m [= <-]. exists []. repeat split; [constructor | exact Eg].
      + rewrite (Hno eq_refl), Hn. split; [|discriminate].
        intros _. repeat constructor. exact Eg.
    - intros Hn. subst b. split.
      + intros Eg. rewrite (Hyes Eg). eauto.
      + intros Eg. now rewrite (Hno Eg).
    - intros ->. discriminate.
    - intros _. repeat constructor; assumption. }
  unfold constraintRRT.extend. destruct flag.
  - destruct (constraintRRT.propagateWhileValid s) as [cd pstates].
    destruct (getMinControlDuration siC_ <=? cd).
    + intros [= E]. apply addIntermediate_grows in E as (added & Hg & Hl & Hst).
      exists added. split; [exact Hg|]. split; [exact Hl|].
      split; [auto | discriminate].
    + intros [= <- <-]. apply Hsame.
  - destruct (constraintRRT.sampleTo s) as [cd rstate].
    destruct (Z.leb_spec (getMinControlDuration siC_) cd) as [Hmin|_].
    2:{ intros [= <- <-]. apply Hsame. }
    destruct (negb (bool_decide (constraints_ = []))) eqn:Ec.
    + intros E. apply bind_Ok in E as (sat & Esat & E). destruct sat.
      * injection E as E.
        apply (Hone (constraintRRT.mkMotion rstate (constraintRRT.rctrl s) cd
                       (Some (constraintRRT.nmotion s))));
          [exact Hmin | reflexivity | | reflexivity | exact E].
        intros _. exact Esat.
      * injection E as <- <-. apply Hsame.
    + intros [= E].
      apply (Hone (constraintRRT.mkMotion rstate (constraintRRT.rctrl s) cd
                     (Some (constraintRRT.nmotion s))));
        [exact Hmin | reflexivity | | reflexivity | exact E].
      intros Hne. apply negb_false_iff, bool_decide_eq_true in Ec. contradiction.
Qed.

(** The main loop. *)
Lemma rrt_grows (flag : bool) (a_ : option (Agent D)) (siC_ : SpaceInformation)
    (constraints_ : list (Constraint D)) :
  forall (samples : list Sample) (t t' : Tree),
    rrt flag a_ siC_ constraints_ t samples = Ok t' ->
    exists added,
      grown t t' added /\
      (flag = true -> Forall (fun m => constraintRRT.steps m = 1) added) /\
      (flag = false ->
       Forall (fun m =>
                 getMinControlDuration siC_ <= constraintRRT.steps m /\
                 (exists s, s ∈ samples /\
                    constraintRRT.parent m = Some (constraintRRT.nmotion s)) /\
                 (constraints_ ≠ [] -> satisfies a_ siC_ constraints_ m = Ok true))
              added).
Proof.
  induction samples as [|s samples IH]; intros t t' E; simpl in E.
  - injection E as <-. exists []. rewrite app_nil_r.
    split; [split; [reflexivity|]|split; constructor].
    intros Hn. split; [constructor|]. intros m Hm. congruence.
  - apply bind_Ok in E as ([t1 leave] & Ee & E).
    apply extend_grows in Ee as (added1 & [Hnn1 Hg1] & Hl1 & Ht1 & Hf1).
    assert (flag = false ->
            Forall (fun m =>
                 getMinControlDuration siC_ <= constraintRRT.steps m /\
                 (exists s0, s0 ∈ s :: samples /\
                    constraintRRT.parent m = Some (constraintRRT.nmotion s0)) /\
                 (constraints_ ≠ [] -> satisfies a_ siC_ constraints_ m = Ok true))
              added1) as Hf1'.
    { intros Hfl. eapply Forall_impl; [exact (Hf1 Hfl)|].
      intros m (Hmin & Hpar & Hsat). split; [exact Hmin|]. split; [|exact Hsat].
      exists s. split; [apply list_elem_of_here | exact Hpar]. }
    destruct leave.
    + injection E as <-. exists added1.
      split; [split; assumption|]. split; assumption.
    + apply IH in E as (added2 & [Hnn2 Hg2] & Ht2 & Hf2).
      exists (added1 ++ added2). split; [split|split].
      * rewrite Hnn2, Hnn1, <- app_assoc. reflexivity.
      * intros Hn. destruct (Hg1 Hn) as [HB1 _].
        destruct (Hl1 Hn) as [_ Hnone]. specialize (Hnone eq_refl).
        specialize (HB1 Hnone). destruct (Hg2 Hnone) as [HB2 HC2]. split.
        -- intros Hn'. apply Forall_app. split; [exact HB1 | now apply HB2].
        -- intros m Hm. destruct (HC2 m Hm) as (before & -> & Hbef & Hm').
           exists (added1 ++ before). rewrite app_assoc.
           repeat split; [|exact Hm']. apply Forall_app. now split.
      * intros Hfl. apply Forall_app. split; auto.
      * intros Hfl. apply Forall_app. split; [now apply Hf1'|].
        eapply Forall_impl; [exact (Hf2 Hfl)|].
        intros m (Hmin & (s0 & Hs0 & Hpar) & Hsat).
        split; [exact Hmin|]. split; [|exact Hsat].
        exists s0. split; [now apply list_elem_of_further | exact Hpar].
Qed.

(** X16: the main loop never removes a node: the tree it starts from is
    a prefix of the tree it ends with. *)
Theorem solve_tree_grows (flag : bool) (a_ : option (Agent D))
    (siC_ : SpaceInformation) (constraints_ : list (Constraint D))
    (samples : list Sample) (t t' : Tree) :
  rrt flag a_ siC_ constraints_ t samples = Ok t' ->
  constraintRRT.nn_ t `prefix_of` constraintRRT.nn_ t'.
Proof.
  intros E. apply rrt_grows in E as (added & [Hnn _] & _).
  rewrite Hnn. now apply prefix_app_r.
Qed.

(** X17: with the intermediate-states flag clear, every node the main
    loop adds hangs below the nearest node of some iteration, was
    driven for at least the minimum control duration and, when there
    are constraints, satisfies all of them. *)
Theorem solve_respects_constraints (a_ : option (Agent D))
    (siC_ : SpaceInformation) (constraints_ : list (Constraint D))
    (samples : list Sample) (t t' : Tree) :
  rrt false a_ siC_ constraints_ t samples = Ok t' ->
  exists added,
    constraintRRT.nn_ t' = constraintRRT.nn_ t ++ added /\
    Forall (fun m =>
              getMinControlDuration siC_ <= constraintRRT.steps m /\
              (exists s, s ∈ samples /\
                 constraintRRT.parent m = Some (constraintRRT.nmotion s)) /\
              (constraints_ ≠ [] -> satisfies a_ siC_ constraints_ m = Ok true))
           added.
Proof.
  intros E. apply rrt_grows in E as (added & [Hnn _] & _ & Hf).
  exists added. split; [exact Hnn | now apply Hf].
Qed.

(** X18: started without a solution, the main loop stops at the first
    node that is at the goal: a solution is the last node added and is
    at the goal, and no other added node is at the goal. *)
Theorem solve_stops_at_goal (flag : bool) (a_ : option (Agent D))
    (siC_ : SpaceInformation) (constraints_ : list (Constraint D))
    (samples : list Sample) (t t' : Tree) :
  rrt flag a_ siC_ constraints_ t samples = Ok t' ->
  constraintRRT.solution t = None ->
  exists added,
    constraintRRT.nn_ t' = constraintRRT.nn_ t ++ added /\
    (constraintRRT.solution t' = None ->
     Forall (fun m => atGoal m = false) added) /\
    (forall m, constraintRRT.solution t' = Some m ->
       exists before, added = before ++ [m] /\
                      Forall (fun m => atGoal m = false) before /\
                      atGoal m = true).
Proof.
  intros E Hn. apply rrt_grows in E as (added & [Hnn Hg] & _).
  exists added. split; [exact Hnn|]. now apply Hg.
Qed.

(** *** The reported path *)

Lemma mpath_split :
  forall m : Motion, exists l r,
    LowLevel.mpath m = l ++ [r] /\
    Forall (fun x => is_Some (constraintRRT.parent x)) l /\
    constraintRRT.parent r = None /\
    hd_error (LowLevel.mpath m) = Some m /\
    foldr Z.add 0 (map constraintRRT.steps l) = Spec.ancestorSteps m.
Proof.
  fix IH 1. intros [st c n [p|]].
  - destruct (IH p) as (l & r & El & Hl & Hr & _ & Hsum).
    exists (constraintRRT.mkMotion st c n (Some p) :: l), r.
    simpl. rewrite El. split; [reflexivity|]. split; [|split; [exact Hr|]].
    + constructor; [simpl; eauto | exact Hl].
    + split; [reflexivity|]. simpl in Hsum. rewrite Hsum. reflexivity.
  - exists [], (constraintRRT.mkMotion st c n None). simpl.
    repeat split. constructor.
Qed.

Lemma foldr_add_shift (zs : list Z) (a : Z) :
  foldr Z.add a zs = a + foldr Z.add 0 zs.
Proof. induction zs as [|z zs IH]; simpl; [lia|]. rewrite IH. lia. Qed.

Lemma sum_reverse (zs : list Z) :
  foldr Z.add 0 (reverse zs) = foldr Z.add 0 zs.
Proof.
  induction zs as [|z zs IH]; [reflexivity|].
  rewrite reverse_cons, foldr_app. simpl.
  rewrite foldr_add_shift, IH. lia.
Qed.

Lemma foldl_appendMotion (siC_ : SpaceInformation) :
  forall (ms : list Motion) (path : PathControl D State Control),
    Forall (fun x => is_Some (constraintRRT.parent x)) ms ->
    foldl (LowLevel.appendMotion siC_) path ms
    = {| getSpaceInformation := getSpaceInformation path;
         getStates := getStates path ++ map constraintRRT.state ms;
         getControls := getControls path ++ map LowLevel.control ms;
         getControlDurations :=
           getControlDurations path
             ++ map (fun x => dmul (d_of_int (constraintRRT.steps x))
                                   (getPropagationStepSize siC_)) ms |}.
Proof.
  induction ms as [|x ms IH]; intros path Hall.
  - simpl. rewrite !app_nil_r. now destruct path.
  - inversion Hall as [|? ? [q Hq] Hrest]; subst. simpl.
    rewrite IH by exact Hrest. unfold LowLevel.appendMotion. rewrite Hq. simpl.
    now rewrite <- !app_assoc.
Qed.

Lemma solutionPath_spec (siC_ : SpaceInformation) (m : Motion) :
  getStates (LowLevel.solutionPath siC_ m)
  = map constraintRRT.state (reverse (LowLevel.mpath m)) /\
  getControls (LowLevel.solutionPath siC_ m)
  = map LowLevel.control (tail (reverse (LowLevel.mpath m))) /\
  getControlDurations (LowLevel.solutionPath siC_ m)
  = map (fun x => dmul (d_of_int (constraintRRT.steps x))
                       (getPropagationStepSize siC_))
        (tail (reverse (LowLevel.mpath m))) /\
  last (getStates (LowLevel.solutionPath siC_ m)) = Some (constraintRRT.state m).
Proof.
  destruct (mpath_split m) as (l & r & El & Hl & Hr & Hhd & _).
  unfold LowLevel.solutionPath. rewrite El, reverse_app. simpl.
  rewrite foldl_appendMotion by (apply Forall_reverse; exact Hl).
  unfold LowLevel.appendMotion. rewrite Hr. simpl.
  split; [reflexivity|]. split; [reflexivity|]. split; [reflexivity|].
  rewrite El in Hhd. destruct l as [|x l]; simpl in Hhd.
  - injection Hhd as ->. reflexivity.
  - injection Hhd as ->. rewrite reverse_cons, map_app. simpl.
    rewrite app_comm_cons. apply last_snoc.
Qed.

Lemma solutionPath_length (siC_ : SpaceInformation) (m : Motion) :
  length (getStates (LowLevel.solutionPath siC_ m))
  = S (length (getControls (LowLevel.solutionPath siC_ m))).
Proof.
  destruct (solutionPath_spec siC_ m) as (Hs & Hc & _).
  rewrite Hs, Hc, !length_map.
  destruct (mpath_split m) as (l & r & -> & _).
  rewrite reverse_app. simpl. reflexivity.
Qed.

(** X19: the path reported for a solution node lists the states of the
    node's ancestor chain from the root down, with the control and the
    duration (steps times Delta) of every node but the root; it has one
    state more than controls and ends in the node's own state. *)
Theorem solutionPath_shape (siC_ : SpaceInformation) (m : Motion) :
  getStates (LowLevel.solutionPath siC_ m)
  = map constraintRRT.state (reverse (LowLevel.mpath m)) /\
  getControls (LowLevel.solutionPath siC_ m)
  = map LowLevel.control (tail (reverse (LowLevel.mpath m))) /\
  getControlDurations (LowLevel.solutionPath siC_ m)
  = map (fun x => dmul (d_of_int (constraintRRT.steps x))
                       (getPropagationStepSize siC_))
        (tail (reverse (LowLevel.mpath m))) /\
  length (getStates (LowLevel.solutionPath siC_ m))
  = S (length (getControls (LowLevel.solutionPath siC_ m))) /\
  last (getStates (LowLevel.solutionPath siC_ m)) = Some (constraintRRT.state m).
Proof.
  destruct (solutionPath_spec siC_ m) as (Hs & Hc & Hd & Hlast).
  split; [exact Hs|]. split; [exact Hc|]. split; [exact Hd|].
  split; [apply solutionPath_length | exact Hlast].
Qed.

(** X20: the step counts of the nodes behind the controls of the
    reported path add up to the step sum of the solution node, which is
    what the constraint check counts for it as long as the sum fits an
    [int]. *)
Theorem solutionPath_steps (m : Motion) :
  foldr Z.add 0 (map constraintRRT.steps (tail (reverse (LowLevel.mpath m))))
  = Spec.ancestorSteps m /\
  (- 2 ^ 31 <= Spec.ancestorSteps m < 2 ^ 31 ->
   constraintRRT.countSteps m 0
   = foldr Z.add 0 (map constraintRRT.steps (tail (reverse (LowLevel.mpath m))))).
Proof.
  assert (foldr Z.add 0 (map constraintRRT.steps (tail (reverse (LowLevel.mpath m))))
          = Spec.ancestorSteps m) as Hsum.
  { destruct (mpath_split m) as (l & r & El & _ & _ & _ & Hsum).
    rewrite El, reverse_app. simpl.
    rewrite <- Hsum, <- (sum_reverse (map constraintRRT.steps l)).
    f_equal. apply (fmap_reverse constraintRRT.steps). }
  split; [exact Hsum|]. intros Hr. rewrite Hsum. now apply countSteps_exact.
Qed.
End LowLevelMore.

(** ** The low-level planner from entry to return *)

Section PlanMore.
Context {D : Type} `{DoubleOps D} {State Control : Type}.
Context (stateX stateY stateTheta : State -> D).
Context (disjoint : @polygon D -> @polygon D -> bool).
Context (isSatisfied : State -> bool * D).
#[local] Abbreviation Motion := (@constraintRRT.Motion State Control).
#[local] Abbreviation Tree := (@constraintRRT.Tree D State Control).
#[local] Abbreviation Sample := (@constraintRRT.Sample State Control).
#[local] Abbreviation SpaceInformation := (SpaceInformation D State Control).
#[local] Abbreviation plan :=
  (LowLevel.plan stateX stateY stateTheta disjoint isSatisfied).
#[local] Abbreviation rrt :=
  (constraintRRT.solve stateX stateY stateTheta disjoint isSatisfied).
#[local] Abbreviation seedOf nullControl :=
  (fun st : State => constraintRRT.mkMotion st nullControl 0 (@None Motion)).

Lemma addStarts_spec (nullControl : Control) (starts : list State) :
  forall nn : list Motion,
    LowLevel.addStarts nullControl nn starts
    = nn ++ map (seedOf nullControl) starts.
Proof.
  induction starts as [|st starts IH]; intros nn; simpl.
  - now rewrite app_nil_r.
  - rewrite IH, <- app_assoc. reflexivity.
Qed.

(** With the agent object set, no iteration faults. *)
Lemma rrt_total (flag : bool) (a : Agent D) (siC_ : SpaceInformation)
    (constraints_ : list (Constraint D)) :
  forall (samples : list Sample) (t : Tree),
    exists t', rrt flag (Some a) siC_ constraints_ t samples = Ok t'.
Proof.
  induction samples as [|s samples IH]; intros t; simpl; [eauto|].
  assert (exists r, constraintRRT.extend stateX stateY stateTheta disjoint
                      isSatisfied flag (Some a) siC_ constraints_ t s = Ok r)
    as [[t1 leave] ->].
  { unfold constraintRRT.extend. destruct flag.
    - destruct (constraintRRT.propagateWhileValid s) as [cd pstates].
      destruct (_ <=? _); eauto.
    - destruct (constraintRRT.sampleTo s) as [cd rstate].
      destruct (_ <=? _); [|eauto]. destruct (negb _); [|eauto]. simpl.
      destruct (forallb _ _); eauto. }
  simpl. destruct leave; [eauto | apply IH].
Qed.

(** X21: with the agent object set the low-level planner returns.  It
    reports [INVALID_START] exactly when there is neither a tree nor a
    start state; it keeps the tree it was entered with and the start
    states; a reported path comes with the matching status, and a path
    reported as exact ends in a state at the goal; without a report the
    status is [INVALID_START] or [TIMEOUT]. *)
Theorem plan_report (flag : bool) (a : Agent D) (siC_ : SpaceInformation)
    (constraints_ : list (Constraint D)) (infinity : D) (nullControl : Control)
    (nn0 : list Motion) (starts : list State) (samples : list Sample) :
  exists out,
    plan flag (Some a) siC_ constraints_ infinity nullControl nn0 starts samples
    = Ok out /\
    (LowLevel.status out = INVALID_START <-> nn0 = [] /\ starts = []) /\
    (nn0 ++ map (seedOf nullControl) starts) `prefix_of` LowLevel.tree out /\
    match LowLevel.report out with
    | Some rep =>
      LowLevel.status out
      = (if LowLevel.reportedApproximate rep
         then APPROXIMATE_SOLUTION else EXACT_SOLUTION) /\
      length (getStates (LowLevel.reportedPath rep))
      = S (length (getControls (LowLevel.reportedPath rep))) /\
      (LowLevel.reportedApproximate rep = false ->
       exists s, last (getStates (LowLevel.reportedPath rep)) = Some s /\
                 (isSatisfied s).1 = true)
    | None =>
      LowLevel.status out = INVALID_START \/ LowLevel.status out = TIMEOUT
    end.
Proof.
  unfold LowLevel.plan. rewrite addStarts_spec.
  set (nn := nn0 ++ map (seedOf nullControl) starts).
  destruct (decide (length nn = 0)%nat) as [Hz|Hnz].
  - eexists. split; [reflexivity|]. simpl.
    apply length_zero_iff_nil in Hz. split; [|split; [reflexivity | now left]].
    split; [intros _|reflexivity].
    unfold nn in Hz. apply app_eq_nil in Hz as [-> Hm].
    split; [reflexivity|]. now destruct starts.
  - set (t0 := {| constraintRRT.nn_ := nn; constraintRRT.solution := None;
                  constraintRRT.approxsol := None;
                  constraintRRT.approxdif := infinity |}).
    destruct (rrt_total flag a siC_ constraints_ samples t0) as [t' E].
    rewrite E. simpl.
    pose proof (rrt_grows stateX stateY stateTheta disjoint isSatisfied
                  flag (Some a) siC_ constraints_ samples t0 t' E)
      as (added & [Hnn Hg] & _).
    simpl in Hnn. destruct (Hg eq_refl) as [_ HC].
    assert (~ (nn0 = [] /\ starts = [])) as Hne.
    { intros [-> ->]. apply Hnz. reflexivity. }
    destruct (constraintRRT.solution t') as [m|] eqn:Es.
    + eexists. split; [reflexivity|]. simpl.
      split; [split; [discriminate | tauto]|].
      split; [rewrite Hnn; now apply prefix_app_r|].
      destruct (solutionPath_spec siC_ m) as (_ & _ & _ & Hlast).
      pose proof (solutionPath_length siC_ m) as Hlen.
      split; [reflexivity|]. split; [exact Hlen|]. intros _.
      exists (constraintRRT.state m). split; [exact Hlast|].
      destruct (HC m eq_refl) as (before & _ & _ & Hgoal). exact Hgoal.
    + destruct (constraintRRT.approxsol t') as [m|] eqn:Ea.
      * eexists. split; [reflexivity|]. simpl.
        split; [split; [discriminate | tauto]|].
        split; [rewrite Hnn; now apply prefix_app_r|].
        pose proof (solutionPath_length siC_ m) as Hlen.
        split; [reflexivity|]. split; [exact Hlen | discriminate].
      * eexists. split; [reflexivity|]. simpl.
        split; [split; [discriminate | tauto]|].
        split; [rewrite Hnn; now apply prefix_app_r | now right].
Qed.

(** X22: without an agent object the planner ends the process as soon
    as, with the flag clear and constraints to check, an iteration
    proposes a motion of at least the minimum control duration. *)
Theorem plan_without_agent_exits (siC_ : SpaceInformation)
    (constraints_ : list (Constraint D)) (infinity : D) (nullControl : Control)
    (nn0 : list Motion) (starts : list State)
    (s : Sample) (samples : list Sample) :
  constraints_ ≠ [] ->
  (nn0 ≠ [] \/ starts ≠ []) ->
  getMinControlDuration siC_ <= (constraintRRT.sampleTo s).1 ->
  plan false None siC_ constraints_ infinity nullControl nn0 starts (s :: samples)
  = Fault (ProcessExit 1).
Proof.
  intros Hc Hseed Hmin. unfold LowLevel.plan. rewrite addStarts_spec.
  destruct (decide _) as [Hz|_].
  { apply length_zero_iff_nil, app_eq_nil in Hz as [-> Hm].
    destruct starts; [|discriminate]. destruct Hseed; congruence. }
  simpl. unfold constraintRRT.extend.
  destruct (constraintRRT.sampleTo s) as [cd rstate]. simpl in Hmin.
  destruct (Z.leb_spec (getMinControlDuration siC_) cd) as [_|Hlt]; [|lia].
  rewrite bool_decide_eq_false_2 by exact Hc. reflexivity.
Qed.
End PlanMore.

(** ** The further properties on the scenarios *)

Lemma drive_length (s : Example.State) (u : Example.Control) (n : nat) :
  length (Example.drive s u n) = n.
Proof.
  revert s. induction n as [|n IH]; intros s; simpl; [reflexivity|].
  now rewrite IH.
Defined.

Lemma Example_disjoint_symmetric (p q : @polygon Q) :
  Example.disjoint p q = Example.disjoint q p.
Proof.
  unfold Example.disjoint.
  destruct (Qle_bool (Example.lowest (map fst p)) (Example.highest (map fst q))),
           (Qle_bool (Example.lowest (map fst q)) (Example.highest (map fst p))),
           (Qle_bool (Example.lowest (map snd p)) (Example.highest (map snd q))),
           (Qle_bool (Example.lowest (map snd q)) (Example.highest (map snd p)));
    reflexivity.
Defined.

Lemma interpolate_uniform_fixed_witness :
  KD_CBS.interpolate Scenario.lowerLane = Ok Scenario.lowerLane.
Proof.
  apply interpolate_uniform_fixed.
  - reflexivity.
  - reflexivity.
  - repeat constructor; vm_compute; discriminate.
Defined.

Lemma interpolate_idempotent_witness :
  exists q, KD_CBS.interpolate Example.twoSegments = Ok q /\
            KD_CBS.interpolate q = Ok q.
Proof.
  apply interpolate_idempotent.
  - reflexivity.
  - reflexivity.
  - repeat constructor; vm_compute; discriminate.
  - intros s u n Hn. apply drive_length.
  - split; vm_compute; discriminate.
Defined.

Lemma interpolate_keeps_counts_witness :
  exists q,
    KD_CBS.interpolate Example.twoSegments = Ok q /\
    length (getStates q) = S (length (getControls q)) /\
    length (getControlDurations q) = length (getControls q) /\
    Forall (fun d' => d' = 1%Q \/ d' ∈ [3%Q; 1%Q]) (getControlDurations q).
Proof.
  apply (interpolate_keeps_counts Example.twoSegments).
  - reflexivity.
  - reflexivity.
  - repeat constructor; vm_compute; discriminate.
  - intros s u n Hn. apply drive_length.
Defined.

Lemma interpolate_negative_duration_witness :
  KD_CBS.interpolate Scenario.backwards = Fault AssertFailed.
Proof.
  apply (interpolate_negative_duration Scenario.backwards (-2)%Q).
  - reflexivity.
  - reflexivity.
  - apply list_elem_of_here.
  - vm_compute. reflexivity.
Defined.

Lemma firstCollision_lexicographic_witness :
  KD_CBS.firstCollision Example.disjoint Scenario.threeShapes = Some (1, 2)%nat /\
  Example.disjoint (footprint 2 2 0 0 0)%Q (footprint 2 2 10 0 0)%Q = true.
Proof.
  split; [vm_compute; reflexivity|].
  apply (firstCollision_lexicographic Example.disjoint Scenario.threeShapes
           1 2 0 1).
  - vm_compute. reflexivity.
  - left. lia.
  - discriminate.
  - reflexivity.
  - reflexivity.
Defined.

Lemma validatePlan_one_pair_witness :
  exists res ai aj,
    KD_CBS.validatePlan Example.stateX Example.stateY Example.stateTheta
      Example.disjoint Example.twoCars [Example.eastbound; Example.westbound]
    = Ok res /\
    Forall (fun r => agent1 r = ai /\ agent2 r = aj) res /\
    (res ≠ [] -> ai ≠ aj /\ (ai < 2)%nat /\ (aj < 2)%nat).
Proof.
  apply (validatePlan_one_pair Example.stateX Example.stateY Example.stateTheta
           Example.disjoint Example.twoCars
           [Example.eastbound; Example.westbound] Example.eastbound).
  - reflexivity.
  - simpl; lia.
  - repeat constructor; vm_compute; discriminate.
Defined.

Lemma validatePlan_ordered_pair_witness :
  exists res,
    KD_CBS.validatePlan Example.stateX Example.stateY Example.stateTheta
      Example.disjoint Example.twoCars [Example.eastbound; Example.westbound]
    = Ok res /\
    Forall (fun r => agent1 r < agent2 r)%nat res.
Proof.
  apply (validatePlan_ordered_pair Example.stateX Example.stateY
           Example.stateTheta Example.disjoint Example.twoCars
           [Example.eastbound; Example.westbound] Example.eastbound).
  - exact Example_disjoint_symmetric.
  - reflexivity.
  - simpl; lia.
  - repeat constructor; vm_compute; discriminate.
Defined.

Lemma validatePlan_single_agent_witness :
  KD_CBS.validatePlan Example.stateX Example.stateY Example.stateTheta
    Example.disjoint [Example.car "a0"] [Example.lonely] = Ok [].
Proof.
  apply validatePlan_single_agent.
  - simpl; lia.
  - repeat constructor; vm_compute; discriminate.
Defined.

Lemma copyLoop_drops_ends_witness :
  exists path,
    KD_CBS.copyLoop Example.lonely (KD_CBS.copyBound Example.lonely) 0
      (emptyPath Example.si) = Ok path /\
    getStates path = [Example.at_xy 0 0; Example.at_xy 1 0] /\
    getControls path = [2%Q] /\
    getControlDurations path = [1%Q] /\
    length (getStates path) = 2%nat.
Proof.
  apply (copyLoop_drops_ends Example.si Example.lonely); reflexivity.
Defined.

Lemma solve_root_failure_witness :
  KD_CBS.solve Example.stateX Example.stateY Example.stateTheta
    Example.disjoint Example.popHead Example.twoCars
    [Example.ready Scenario.lowerLane; Scenario.stuck] [] false
  = ([KD_CBS.LowLevelSolve 0; KD_CBS.LowLevelSolve 1], Ok INVALID_START).
Proof.
  apply (solve_root_failure Example.stateX Example.stateY Example.stateTheta
           Example.disjoint Example.popHead Example.twoCars
           [Example.ready Scenario.lowerLane; Scenario.stuck]
           (Example.ready Scenario.lowerLane) false).
  - reflexivity.
  - reflexivity.
  - exists Scenario.stuck. split; [|reflexivity].
    apply list_elem_of_further, list_elem_of_here.
Defined.

Lemma solve_cancelled_witness :
  KD_CBS.solve Example.stateX Example.stateY Example.stateTheta
    Example.disjoint Example.popHead Example.twoCars
    [Example.ready Scenario.lowerLane; Example.ready Scenario.upperLane] [] true
  = ([KD_CBS.LowLevelSolve 0; KD_CBS.LowLevelSolve 1], Ok TIMEOUT).
Proof.
  apply (solve_cancelled Example.stateX Example.stateY Example.stateTheta
           Example.disjoint Example.popHead Example.twoCars
           [Example.ready Scenario.lowerLane; Example.ready Scenario.upperLane]
           (Example.ready Scenario.lowerLane)
           [Scenario.lowerLane; Scenario.upperLane] []).
  - reflexivity.
  - reflexivity.
  - repeat constructor.
Defined.

Lemma solve_delivers_witness :
  exists adds,
    KD_CBS.solve Example.stateX Example.stateY Example.stateTheta
      Example.disjoint Example.popHead Example.twoCars
      [Example.ready Scenario.lowerLane; Example.ready Scenario.upperLane]
      [] false
    = ([KD_CBS.LowLevelSolve 0; KD_CBS.LowLevelSolve 1] ++ adds,
       Ok EXACT_SOLUTION) /\
    length adds = 2%nat.
Proof.
  destruct (solve_delivers Example.stateX Example.stateY Example.stateTheta
              Example.disjoint Example.popHead Example.twoCars
              [Example.ready Scenario.lowerLane; Example.ready Scenario.upperLane]
              (Example.ready Scenario.lowerLane)
              [Scenario.lowerLane; Scenario.upperLane])
    as (adds & E & Hl & _).
  - reflexivity.
  - reflexivity.
  - repeat constructor.
  - reflexivity.
  - vm_compute. reflexivity.
  - repeat constructor.
  - simpl; lia.
  - exists adds. split; [exact E | exact Hl].
Defined.

Lemma solve_solved_conflict_free_witness :
  exists node rest adds,
    Example.popHead
      [ {| KD_CBS.getPlan := [Scenario.lowerLane; Scenario.upperLane] |} ]
    = Some (node, rest) /\
    KD_CBS.validatePlan Example.stateX Example.stateY Example.stateTheta
      Example.disjoint Example.twoCars (KD_CBS.getPlan node) = Ok [] /\
    KD_CBS.deliver Example.twoCars (KD_CBS.getPlan node)
      [Example.ready Scenario.lowerLane; Example.ready Scenario.upperLane]
      0 false = (adds, Ok true) /\
    length adds = 2%nat.
Proof.
  pose proof (fun t st =>
    solve_solved_conflict_free Example.stateX Example.stateY
      Example.stateTheta Example.disjoint Example.popHead Example.twoCars
      [Example.ready Scenario.lowerLane; Example.ready Scenario.upperLane]
      [] false t st) as P.
  specialize (P _ _ ltac:(vm_compute; reflexivity) ltac:(reflexivity)).
  destruct P as (_ & _ & node & rest & adds & Hpop & Hv & _ & Hd & Hl & _).
  exists node, rest, adds. repeat split; assumption.
Defined.

Lemma solve_tree_grows_witness :
  exists t',
    constraintRRT.solve Example.stateX Example.stateY Example.stateTheta
      Example.disjoint Scenario.nearGoal false (Some (Example.car "a0"))
      Example.si Scenario.farAway Example.seeded
      [Example.oneStep; Scenario.second] = Ok t' /\
    constraintRRT.nn_ Example.seeded `prefix_of` constraintRRT.nn_ t'.
Proof.
  destruct (constraintRRT.solve Example.stateX Example.stateY
              Example.stateTheta Example.disjoint Scenario.nearGoal false
              (Some (Example.car "a0")) Example.si Scenario.farAway
              Example.seeded [Example.oneStep; Scenario.second])
    as [t'|f] eqn:E; [|vm_compute in E; discriminate].
  exists t'. split; [reflexivity|].
  exact (solve_tree_grows Example.stateX Example.stateY Example.stateTheta
           Example.disjoint Scenario.nearGoal false (Some (Example.car "a0"))
           Example.si Scenario.farAway [Example.oneStep; Scenario.second]
           Example.seeded t' E).
Defined.

Lemma solve_respects_constraints_witness :
  exists t' added,
    constraintRRT.solve Example.stateX Example.stateY Example.stateTheta
      Example.disjoint Scenario.nearGoal false (Some (Example.car "a0"))
      Example.si Scenario.farAway Example.seeded
      [Example.oneStep; Scenario.second] = Ok t' /\
    constraintRRT.nn_ t' = constraintRRT.nn_ Example.seeded ++ added /\
    Forall (fun m =>
              constraintRRT.satisfiesConstraints Example.stateX Example.stateY
                Example.stateTheta Example.disjoint (Some (Example.car "a0"))
                Example.si Scenario.farAway m = Ok true) added.
Proof.
  destruct (constraintRRT.solve Example.stateX Example.stateY
              Example.stateTheta Example.disjoint Scenario.nearGoal false
              (Some (Example.car "a0")) Example.si Scenario.farAway
              Example.seeded [Example.oneStep; Scenario.second])
    as [t'|f] eqn:E; [|vm_compute in E; discriminate].
  destruct (solve_respects_constraints Example.stateX Example.stateY
              Example.stateTheta Example.disjoint Scenario.nearGoal
              (Some (Example.car "a0")) Example.si Scenario.farAway
              [Example.oneStep; Scenario.second] Example.seeded t' E)
    as (added & Hnn & Hall).
  exists t', added. split; [reflexivity|]. split; [exact Hnn|].
  eapply Forall_impl; [exact Hall|]. intros m (_ & _ & Hsat).
  apply Hsat. discriminate.
Defined.

Lemma solve_stops_at_goal_witness :
  exists t' added,
    constraintRRT.solve Example.stateX Example.stateY Example.stateTheta
      Example.disjoint Scenario.nearGoal false (Some (Example.car "a0"))
      Example.si Scenario.farAway Example.seeded
      [Example.oneStep; Scenario.second] = Ok t' /\
    constraintRRT.nn_ t' = constraintRRT.nn_ Example.seeded ++ added /\
    forall m, constraintRRT.solution t' = Some m ->
      exists before, added = before ++ [m] /\
        Forall (fun m => (Scenario.nearGoal (constraintRRT.state m)).1 = false)
               before /\
        (Scenario.nearGoal (constraintRRT.state m)).1 = true.
Proof.
  destruct (constraintRRT.solve Example.stateX Example.stateY
              Example.stateTheta Example.disjoint Scenario.nearGoal false
              (Some (Example.car "a0")) Example.si Scenario.farAway
              Example.seeded [Example.oneStep; Scenario.second])
    as [t'|f] eqn:E; [|vm_compute in E; discriminate].
  destruct (solve_stops_at_goal Example.stateX Example.stateY
              Example.stateTheta Example.disjoint Scenario.nearGoal false
              (Some (Example.car "a0")) Example.si Scenario.farAway
              [Example.oneStep; Scenario.second] Example.seeded t' E eq_refl)
    as (added & Hnn & _ & Hsol).
  exists t', added. split; [reflexivity|]. split; [exact Hnn | exact Hsol].
Defined.

Lemma plan_without_agent_exits_witness :
  LowLevel.plan Example.stateX Example.stateY Example.stateTheta
    Example.disjoint Scenario.nearGoal false None Example.si Scenario.farAway
    1000000%Q 0%Q [] [Example.at_xy 4 0] [Example.oneStep]
  = Fault (ProcessExit 1).
Proof.
  apply plan_without_agent_exits.
  - discriminate.
  - right. discriminate.
  - vm_compute. discriminate.
Defined.
